(** * Event-sourcing proof of concept: aggregates, event store, projections

    A shallow embedding of the TypeScript sources
    ([framework/Event.ts], [framework/Aggregate.ts], [framework/EventStore.ts],
    [domain/User.ts], [domain/UserRepository.ts], [projections/UserDirectory.ts],
    [projections/UserDirectoryRepository.ts]) and of the earlier per-aggregate
    event store, followed by the properties of the specification.

    Conventions of the embedding:
    - a [ReadonlyArray<T>] is a [list T]; [Array.append], [Array.appendAll],
      [Array.filter], [Array.reduce] and [Array.filterMap] are [++ [x]], [++],
      [filter], [foldl] and [omap];
    - [Option<T>] is [option T]; an optional property of a payload
      ([phoneNumber?: string]) is an [option string];
    - the JavaScript [number] kept in [version] only ever holds small
      naturals (it starts at 0 and is incremented by one), where [number]
      arithmetic is exact; it is a [Z];
    - the closure variable of the in-memory store ([let storedEvents]) is
      threaded explicitly: an operation that assigns it returns the new
      store state;
    - a function built with [Function.dual] is embedded in its data-first
      form, which is the one every call in the sources resolves to. *)

From Stdlib Require Import ZArith Ascii String.
From stdpp Require Import base strings list gmap fin_maps sorting.

(** ** framework/Event.ts *)

Module Event.

Abbreviation AggregateId := string.

(** [Event<Tag, Payload>]: every event exposes its discriminator and the
    identifier of the aggregate it belongs to.  The payload stays inside
    the concrete event type. *)
Class AnyEvent (E : Type) := {
  _tag : E → string;
  aggregateId : E → AggregateId;
}.

End Event.

(** ** framework/Aggregate.ts *)

Module Aggregate.

Import Event.

Record Aggregate (State E : Type) := mkAggregate {
  aggregateId : AggregateId;
  state : State;
  committedChanges : list E;
  uncommittedChanges : list E;
  version : Z;
}.
Arguments mkAggregate {State E}.
Arguments aggregateId {State E}.
Arguments state {State E}.
Arguments committedChanges {State E}.
Arguments uncommittedChanges {State E}.
Arguments version {State E}.

(** [makeFactory(state)(aggregateId)] *)
Definition makeFactory {State E : Type} (state0 : State)
    (id : AggregateId) : Aggregate State E :=
  {| aggregateId := id;
     state := state0;
     committedChanges := [];
     uncommittedChanges := [];
     version := 0 |}.

(** [markChangesAsCommitted(aggregate)]: the spread keeps [aggregateId],
    [state] and [version]. *)
Definition markChangesAsCommitted {State E : Type}
    (aggregate : Aggregate State E) : Aggregate State E :=
  {| aggregateId := aggregateId aggregate;
     state := state aggregate;
     committedChanges :=
       committedChanges aggregate ++ uncommittedChanges aggregate;
     uncommittedChanges := [];
     version := version aggregate |}.

(** [makeEventApplier(applyEventToState)(aggregate, event, isNew)] *)
Definition makeEventApplier {State E : Type}
    (applyEventToState : State → E → State)
    (aggregate : Aggregate State E) (event : E) (isNew : bool)
    : Aggregate State E :=
  {| aggregateId := aggregateId aggregate;
     state := applyEventToState (state aggregate) event;
     committedChanges :=
       if isNew then committedChanges aggregate
       else committedChanges aggregate ++ [event];
     uncommittedChanges :=
       if isNew then uncommittedChanges aggregate ++ [event]
       else uncommittedChanges aggregate;
     version := (version aggregate + 1)%Z |}.

(** The aggregates one can obtain from the factory with the operations
    of this module. *)
Inductive reachable {State E : Type} (reduce : State → E → State)
    (state0 : State) (id : AggregateId) : Aggregate State E → Prop :=
| reachable_factory :
    reachable reduce state0 id (makeFactory state0 id)
| reachable_apply a event isNew :
    reachable reduce state0 id a →
    reachable reduce state0 id (makeEventApplier reduce a event isNew)
| reachable_commit a :
    reachable reduce state0 id a →
    reachable reduce state0 id (markChangesAsCommitted a).

(** *** Aggregates as objects

    At run time an aggregate is an object and the functions above receive
    a reference to it.  Both [markChangesAsCommitted] and the event
    applier evaluate an object literal [({ ...aggregate, ... })]: they
    read the properties of their argument, allocate a new object and
    return the reference to it.  The two arrays are read-only values
    ([Array.append] and [Array.appendAll] build new arrays), so a cell
    holds them by value. *)

Abbreviation Ref := positive.

Abbreviation Heap State E := (gmap positive (Aggregate State E)).

(** Evaluation of an object literal: a cell that is not yet in use. *)
Definition alloc {State E : Type} (h : Heap State E)
    (a : Aggregate State E) : Heap State E * Ref :=
  let r := fresh (dom h) in (<[r := a]> h, r).

Definition applyEventRef {State E : Type}
    (applyEventToState : State → E → State)
    (h : Heap State E) (self : Ref) (event : E) (isNew : bool)
    : option (Heap State E * Ref) :=
  aggregate ← h !! self;
  Some (alloc h (makeEventApplier applyEventToState aggregate event isNew)).

End Aggregate.

(** ** framework/EventStore.ts *)

Module EventStore.

Import Event.

(** The interface [EventStore<E>].  An implementation keeps its events in
    a state of type [St]; [saveEvents] returns the state it leaves. *)
Class EventStore (St E : Type) := {
  loadEvents : St → list string → list E;
  loadEventsForAggregate : St → AggregateId → list string → list E;
  saveEvents : St → AggregateId → list E → St;
}.

(** [hasMatchingTag(tags)(e)]: [Array.contains(tags, e._tag)]. *)
Definition hasMatchingTag {E : Type} `{AnyEvent E} (tags : list string)
    (e : E) : Prop :=
  _tag e ∈ tags.

#[global] Instance hasMatchingTag_dec {E : Type} `{AnyEvent E}
    (tags : list string) (e : E) : Decision (hasMatchingTag tags e).
Proof. unfold hasMatchingTag. apply _. Defined.

(** [makeInMemory(initialEvents)]: the state is the array [storedEvents],
    one log for all aggregates. *)
Definition makeInMemory {E : Type} (initialEvents : list E) : list E :=
  initialEvents.

#[global] Instance inMemory {E : Type} `{AnyEvent E}
    : EventStore (list E) E := {
  loadEvents storedEvents tags :=
    filter (hasMatchingTag tags) storedEvents;
  loadEventsForAggregate storedEvents id tags :=
    filter (hasMatchingTag tags)
      (filter (λ e, aggregateId e = id) storedEvents);
  saveEvents storedEvents _aggregateId events :=
    storedEvents ++ events;
}.

(** [commit(aggregate, store)] *)
Definition commit {State St E : Type} `{EventStore St E}
    (aggregate : Aggregate.Aggregate State E) (store : St)
    : St * Aggregate.Aggregate State E :=
  let store' :=
    saveEvents store (Aggregate.aggregateId aggregate)
      (Aggregate.uncommittedChanges aggregate) in
  (store', Aggregate.markChangesAsCommitted aggregate).

End EventStore.

(** ** The earlier event store, one array per aggregate

    Its state is the record [eventsByAggregate], from aggregate identifier
    to the array of that aggregate's events.  The record is only read with
    [Record.get] and written with [Record.set], so it is a finite map. *)

Module EventStoreByAggregate.

Import Event.

Section InMemory.

Context {E : Type} `{AnyEvent E}.

(** [loadEvents(aggregateId, tags)] *)
Definition loadEvents (eventsByAggregate : gmap string (list E))
    (id : AggregateId) (tags : list string) : list E :=
  default [] (filter (EventStore.hasMatchingTag tags)
                <$> eventsByAggregate !! id).

(** [saveEvents(aggregateId, events)] *)
Definition saveEvents (eventsByAggregate : gmap string (list E))
    (id : AggregateId) (events : list E) : gmap string (list E) :=
  let existingEvents := default [] (eventsByAggregate !! id) in
  let updatedEvents := existingEvents ++ events in
  <[id := updatedEvents]> eventsByAggregate.

(** [commit(aggregate, store)] *)
Definition commit {State : Type} (aggregate : Aggregate.Aggregate State E)
    (eventsByAggregate : gmap string (list E))
    : gmap string (list E) * Aggregate.Aggregate State E :=
  (saveEvents eventsByAggregate (Aggregate.aggregateId aggregate)
     (Aggregate.uncommittedChanges aggregate),
   Aggregate.markChangesAsCommitted aggregate).

End InMemory.

End EventStoreByAggregate.

(** ** domain/User.ts *)

Module User.

Import Event.

Record UserState := mkUserState {
  firstName : string;
  lastName : string;
  displayName : string;
  phoneNumber : option string;
}.

(** [UserEvent = UserCreated | FirstNameUpdated | PhoneNumberUpdated]; each
    constructor carries the aggregate identifier and the fields of its
    payload. *)
Inductive UserEvent :=
| UserCreated (id : AggregateId) (firstName lastName : string)
    (phoneNumber : option string)
| FirstNameUpdated (id : AggregateId) (firstName : string)
| PhoneNumberUpdated (id : AggregateId) (phoneNumber : string).

#[global] Instance UserEvent_eq_dec : EqDecision UserEvent.
Proof. solve_decision. Defined.

#[global] Instance UserEvent_event : AnyEvent UserEvent := {
  _tag e :=
    match e with
    | UserCreated _ _ _ _ => "UserCreated"
    | FirstNameUpdated _ _ => "FirstNameUpdated"
    | PhoneNumberUpdated _ _ => "PhoneNumberUpdated"
    end;
  aggregateId e :=
    match e with
    | UserCreated id _ _ _ => id
    | FirstNameUpdated id _ => id
    | PhoneNumberUpdated id _ => id
    end;
}.

Definition EventTags : list string :=
  ["UserCreated"; "FirstNameUpdated"; "PhoneNumberUpdated"].

Abbreviation UserAggregate := (Aggregate.Aggregate UserState UserEvent).

(** The state handed to [Aggregate.makeFactory] in [empty]. *)
Definition emptyState : UserState :=
  {| firstName := ""; lastName := ""; displayName := "";
     phoneNumber := None |}.

Definition empty : AggregateId → UserAggregate :=
  Aggregate.makeFactory emptyState.

(** [applyEventToState(state, event)]; a template literal
    [`${a} ${b}`] is [a ++ " " ++ b]. *)
Definition applyEventToState (state : UserState) (event : UserEvent)
    : UserState :=
  match event with
  | UserCreated _ firstName' lastName' phoneNumber' =>
      {| firstName := firstName';
         lastName := lastName';
         displayName := firstName' +:+ " " +:+ lastName';
         phoneNumber := phoneNumber' |}
  | FirstNameUpdated _ firstName' =>
      {| firstName := firstName';
         lastName := lastName state;
         displayName := firstName' +:+ " " +:+ lastName state;
         phoneNumber := phoneNumber state |}
  | PhoneNumberUpdated _ phoneNumber' =>
      {| firstName := firstName state;
         lastName := lastName state;
         displayName := displayName state;
         phoneNumber := Some phoneNumber' |}
  end.

Definition applyEvent : UserAggregate → UserEvent → bool → UserAggregate :=
  Aggregate.makeEventApplier applyEventToState.

(** [loadFromHistory(aggregateId, events)] *)
Definition loadFromHistory (id : AggregateId) (events : list UserEvent)
    : UserAggregate :=
  let initial := empty id in
  foldl (λ agg event, applyEvent agg event false) initial events.

(** [create(aggregateId, firstName, lastName, phoneNumber?)].  The
    payload gets a phone number only when the argument is truthy: neither
    left out nor the empty string. *)
Definition create (id : AggregateId) (firstName lastName : string)
    (phoneNumber : option string) : UserAggregate :=
  let event :=
    UserCreated id firstName lastName
      (match phoneNumber with
       | Some p => if decide (p = "") then None else Some p
       | None => None
       end) in
  applyEvent (empty id) event true.

(** [updateFirstName(aggregate, firstName)] *)
Definition updateFirstName (aggregate : UserAggregate) (firstName : string)
    : UserAggregate :=
  let event := FirstNameUpdated (Aggregate.aggregateId aggregate) firstName in
  applyEvent aggregate event true.

(** [updatePhoneNumber(aggregate, phoneNumber)] *)
Definition updatePhoneNumber (aggregate : UserAggregate)
    (phoneNumber : string) : UserAggregate :=
  let event :=
    PhoneNumberUpdated (Aggregate.aggregateId aggregate) phoneNumber in
  applyEvent aggregate event true.

End User.

(** ** domain/UserRepository.ts *)

Module UserRepository.

Import Event.

Section Make.

Context {St : Type} `{EventStore.EventStore St User.UserEvent}.

(** [make(store).getById(id)] *)
Definition getById (store : St) (id : AggregateId) : User.UserAggregate :=
  let events :=
    EventStore.loadEventsForAggregate store id
      ["UserCreated"; "FirstNameUpdated"] in
  User.loadFromHistory id events.

(** [make(store).save(aggregate)] *)
Definition save (store : St) (aggregate : User.UserAggregate)
    : St * User.UserAggregate :=
  EventStore.commit aggregate store.

End Make.

End UserRepository.

(** ** Records of the [effect] library on plain objects

    [projections/UserDirectory.ts] keeps its working state in a
    [Record.ReadonlyRecord<string, V>], a plain object, and reads it back
    with [Record.toEntries], which observes the order of the keys.  An
    object is embedded as the list of its own properties in creation order.
    The engine enumerates own string keys with the array indices first, in
    ascending numeric order, and the other keys after them in creation
    order; [Object.keys], [Object.entries] and the spread [{ ...self }] all
    follow that order. *)

Module Record.

Abbreviation ReadonlyRecord V := (list (string * V)).

Definition digit (c : ascii) : option N :=
  let n := N_of_ascii c in
  if ((48 <=? n) && (n <=? 57))%N then Some (n - 48)%N else None.

Fixpoint digits (acc : N) (s : string) : option N :=
  match s with
  | EmptyString => Some acc
  | String c s' => d ← digit c; digits (10 * acc + d)%N s'
  end.

(** A key is an array index when it is the canonical decimal form of an
    integer between 0 and 2^32 - 2. *)
Definition arrayIndex (key : string) : option N :=
  match key with
  | EmptyString => None
  | String "0"%char EmptyString => Some 0%N
  | String "0"%char _ => None
  | _ => n ← digits 0 key; if (n <? 4294967295)%N then Some n else None
  end.

Definition indexed {V : Type} (self : list (string * V))
    : list (N * (string * V)) :=
  omap (λ kv, (λ n, (n, kv)) <$> arrayIndex kv.1) self.

(** Ascending numeric order of the array indices. *)
Definition indexLe {V : Type} (a b : N * (string * V)) : Prop :=
  (a.1 ≤ b.1)%N.

#[global] Instance indexLe_dec {V : Type} (a b : N * (string * V))
    : Decision (indexLe a b).
Proof. unfold indexLe. apply _. Defined.

(** The own properties in enumeration order. *)
Definition ownEntries {V : Type} (self : list (string * V))
    : list (string * V) :=
  (snd <$> merge_sort indexLe (indexed self))
  ++ filter (λ kv, arrayIndex kv.1 = None) self.

(** Definition of the property [key] on an object: an existing property
    keeps its place, a new one comes last. *)
Fixpoint define {V : Type} (key : string) (value : V)
    (self : list (string * V)) : list (string * V) :=
  match self with
  | [] => [(key, value)]
  | (k, v) :: rest =>
      if decide (k = key) then (key, value) :: rest
      else (k, v) :: define key value rest
  end.

(** The empty object literal. *)
Definition empty {V : Type} : list (string * V) := [].

(** [Record.has(self, key)]: an own property. *)
Definition has {V : Type} (self : list (string * V)) (key : string) : bool :=
  bool_decide (key ∈ self.*1).

(** [Record.get(self, key)] *)
Fixpoint get {V : Type} (self : list (string * V)) (key : string)
    : option V :=
  match self with
  | [] => None
  | (k, v) :: rest => if decide (k = key) then Some v else get rest key
  end.

(** [Record.set(self, key, value)] is [({ ...self, [key]: value })]. *)
Definition set {V : Type} (self : list (string * V)) (key : string)
    (value : V) : list (string * V) :=
  define key value (ownEntries self).

(** [Record.toEntries(self)] *)
Definition toEntries {V : Type} (self : list (string * V))
    : list (string * V) :=
  ownEntries self.

End Record.

(** ** projections/UserDirectory.ts *)

Module UserDirectory.

Import Event.

Record DirectoryEntry := mkDirectoryEntry {
  id : AggregateId;
  displayName : string;
  phoneNumber : string;
}.

Record UserDirectory := mkUserDirectory {
  totalUsers : nat;
  usersWithPhone : nat;
  entries : list DirectoryEntry;
}.

(** The internal [UserProjection]; its fields are [firstName],
    [lastName] and [phoneNumber] in the source. *)
Record UserProjection := mkUserProjection {
  projFirstName : string;
  projLastName : string;
  projPhoneNumber : option string;
}.

Abbreviation ProjectionRecord := (list (string * UserProjection)).

(** [applyEvent(users, event)] *)
Definition applyEvent (users : ProjectionRecord) (event : User.UserEvent)
    : ProjectionRecord :=
  match event with
  | User.UserCreated aggregateId firstName lastName phoneNumber =>
      Record.set users aggregateId
        {| projFirstName := firstName;
           projLastName := lastName;
           projPhoneNumber := phoneNumber |}
  | User.FirstNameUpdated aggregateId firstName =>
      default users
        ((λ existing,
            Record.set users aggregateId
              {| projFirstName := firstName;
                 projLastName := projLastName existing;
                 projPhoneNumber := projPhoneNumber existing |})
         <$> Record.get users aggregateId)
  | User.PhoneNumberUpdated aggregateId phoneNumber =>
      default users
        ((λ existing,
            Record.set users aggregateId
              {| projFirstName := projFirstName existing;
                 projLastName := projLastName existing;
                 projPhoneNumber := Some phoneNumber |})
         <$> Record.get users aggregateId)
  end.

(** The callback of [Array.filterMap] in [toDirectory]. *)
Definition toEntry (entry : string * UserProjection)
    : option DirectoryEntry :=
  let '(id, projection) := entry in
  (λ phoneNumber,
     {| id := id;
        displayName :=
          projFirstName projection +:+ " " +:+ projLastName projection;
        phoneNumber := phoneNumber |})
  <$> projPhoneNumber projection.

(** [toDirectory(projections)] *)
Definition toDirectory (projections : ProjectionRecord) : UserDirectory :=
  let allEntries := Record.toEntries projections in
  let totalUsers := length allEntries in
  let entries := omap toEntry allEntries in
  {| totalUsers := totalUsers;
     usersWithPhone := length entries;
     entries := entries |}.

(** [fromEvents(events)] *)
Definition fromEvents (events : list User.UserEvent) : UserDirectory :=
  let initial : ProjectionRecord := Record.empty in
  let projections := foldl applyEvent initial events in
  toDirectory projections.

End UserDirectory.

(** ** projections/UserDirectoryRepository.ts *)

Module UserDirectoryRepository.

Section Make.

Context {St : Type} `{EventStore.EventStore St User.UserEvent}.

(** [make(store).load()] *)
Definition load (store : St) : UserDirectory.UserDirectory :=
  let events :=
    EventStore.loadEvents store
      ["UserCreated"; "FirstNameUpdated"; "PhoneNumberUpdated"] in
  UserDirectory.fromEvents events.

End Make.

End UserDirectoryRepository.

(** ** The demonstration driver and auxiliary notions

    The session of [index.ts] and the notions the properties below are
    stated with. *)

Module Demo.

Import Event.

(** The updates a caller pipes an aggregate through before saving it. *)
Inductive Update :=
| SetFirstName (firstName : string)
| SetPhoneNumber (phoneNumber : string).

Definition perform (aggregate : User.UserAggregate) (u : Update)
    : User.UserAggregate :=
  match u with
  | SetFirstName firstName => User.updateFirstName aggregate firstName
  | SetPhoneNumber phoneNumber => User.updatePhoneNumber aggregate phoneNumber
  end.

Definition isSetFirstName (u : Update) : Prop :=
  match u with SetFirstName _ => True | SetPhoneNumber _ => False end.

#[global] Instance isSetFirstName_dec (u : Update)
    : Decision (isSetFirstName u).
Proof. destruct u; cbn; apply _. Defined.

(** The event an update emits on an aggregate with identifier [id]. *)
Definition eventOf (id : AggregateId) (u : Update) : User.UserEvent :=
  match u with
  | SetFirstName firstName => User.FirstNameUpdated id firstName
  | SetPhoneNumber phoneNumber => User.PhoneNumberUpdated id phoneNumber
  end.

(** The aggregate with identifier [id] that results from replaying
    [committed] and then applying [uncommitted] as new events. *)
Definition built (id : AggregateId) (committed uncommitted : list User.UserEvent)
    : User.UserAggregate :=
  {| Aggregate.aggregateId := id;
     Aggregate.state :=
       foldl User.applyEventToState User.emptyState
         (committed ++ uncommitted);
     Aggregate.committedChanges := committed;
     Aggregate.uncommittedChanges := uncommitted;
     Aggregate.version :=
       (Z.of_nat (length committed) + Z.of_nat (length uncommitted))%Z |}.

(** The first user of the session, the event of his creation and the
    event of his renaming. *)
Definition robert : User.UserAggregate :=
  User.create "user-001" "Robert" "Smith" None.

Definition created : User.UserEvent :=
  User.UserCreated "user-001" "Robert" "Smith" None.

Definition renamed : User.UserEvent :=
  User.FirstNameUpdated "user-001" "Bob".

(** The store [main] leaves behind: Robert and Alice are created and
    saved, then Robert is loaded, renamed, given a phone number and saved.
    The second component is the aggregate handed to the last [save]. *)
Definition main : list User.UserEvent * User.UserAggregate :=
  let store := EventStore.makeInMemory [] in
  let store := (UserRepository.save store
                  (User.create "user-001" "Robert" "Smith" None)).1 in
  let store := (UserRepository.save store
                  (User.create "user-002" "Alice" "Smith"
                     (Some "555-5678"))).1 in
  let robert := UserRepository.getById store "user-001" in
  let robert := User.updateFirstName robert "Bob" in
  let robert := User.updatePhoneNumber robert "555-1234" in
  ((UserRepository.save store robert).1, robert).

(** The stream [events] holds a [UserCreated] event of aggregate [id]. *)
Definition createdIn (id : AggregateId) (events : list User.UserEvent)
    : Prop :=
  Exists (λ e, _tag e = "UserCreated" ∧ aggregateId e = id) events.

(** Replay of a history on an aggregate, as in [User.loadFromHistory]. *)
Definition replay (aggregate : User.UserAggregate)
    (events : list User.UserEvent) : User.UserAggregate :=
  foldl (λ agg event, User.applyEvent agg event false) aggregate events.

End Demo.

(** ** Sessions on an aggregate

    A caller drives an aggregate through event applications and commit
    markings.  A session is the list of these steps. *)

Module Session.

Inductive Step (E : Type) :=
| Apply (event : E) (isNew : bool)
| Commit.
Arguments Apply {E}.
Arguments Commit {E}.

Definition step {State E : Type} (reduce : State → E → State)
    (a : Aggregate.Aggregate State E) (s : Step E)
    : Aggregate.Aggregate State E :=
  match s with
  | Apply event isNew => Aggregate.makeEventApplier reduce a event isNew
  | Commit => Aggregate.markChangesAsCommitted a
  end.

Definition run {State E : Type} (reduce : State → E → State)
    (a : Aggregate.Aggregate State E) (steps : list (Step E))
    : Aggregate.Aggregate State E :=
  foldl (step reduce) a steps.

(** The events of a session, in the order of their application. *)
Definition applied {E : Type} (steps : list (Step E)) : list E :=
  omap (λ s, match s with Apply event _ => Some event | Commit => None end)
    steps.

(** A session is orderly when it replays an event only while no change is
    uncommitted; [pending] tells whether one is at its start. *)
Fixpoint orderly {E : Type} (pending : bool) (steps : list (Step E)) : Prop :=
  match steps with
  | [] => True
  | Apply _ true :: rest => orderly true rest
  | Apply _ false :: rest => pending = false ∧ orderly false rest
  | Commit :: rest => orderly false rest
  end.

End Session.

(** ** The earlier user aggregate ([User.ts] beside [index.ts])

    It has no phone number, and [loadFromHistory] takes the store: it
    loads the events itself, with all the tags of [EventTags], from the
    per-aggregate store. *)

Module EarlierUser.

Import Event.

Record UserState := mkUserState {
  firstName : string;
  lastName : string;
  displayName : string;
}.

Inductive UserEvent :=
| UserCreated (id : AggregateId) (firstName lastName : string)
| FirstNameUpdated (id : AggregateId) (firstName : string).

#[global] Instance UserEvent_event : AnyEvent UserEvent := {
  _tag e :=
    match e with
    | UserCreated _ _ _ => "UserCreated"
    | FirstNameUpdated _ _ => "FirstNameUpdated"
    end;
  aggregateId e :=
    match e with
    | UserCreated id _ _ => id
    | FirstNameUpdated id _ => id
    end;
}.

Definition EventTags : list string := ["UserCreated"; "FirstNameUpdated"].

Abbreviation UserAggregate := (Aggregate.Aggregate UserState UserEvent).

Definition emptyState : UserState :=
  {| firstName := ""; lastName := ""; displayName := "" |}.

Definition empty : AggregateId → UserAggregate :=
  Aggregate.makeFactory emptyState.

Definition applyEventToState (state : UserState) (event : UserEvent)
    : UserState :=
  match event with
  | UserCreated _ firstName' lastName' =>
      {| firstName := firstName';
         lastName := lastName';
         displayName := firstName' +:+ " " +:+ lastName' |}
  | FirstNameUpdated _ firstName' =>
      {| firstName := firstName';
         lastName := lastName state;
         displayName := firstName' +:+ " " +:+ lastName state |}
  end.

Definition applyEvent : UserAggregate → UserEvent → bool → UserAggregate :=
  Aggregate.makeEventApplier applyEventToState.

(** [loadFromHistory(aggregateId, store)] *)
Definition loadFromHistory (id : AggregateId)
    (store : gmap string (list UserEvent)) : UserAggregate :=
  let events := EventStoreByAggregate.loadEvents store id EventTags in
  let initial := empty id in
  foldl (λ agg event, applyEvent agg event false) initial events.

(** [create(aggregateId, firstName, lastName)] *)
Definition create (id : AggregateId) (firstName lastName : string)
    : UserAggregate :=
  let event := UserCreated id firstName lastName in
  applyEvent (empty id) event true.

(** [updateFirstName(aggregate, firstName)] *)
Definition updateFirstName (aggregate : UserAggregate) (firstName : string)
    : UserAggregate :=
  let event := FirstNameUpdated (Aggregate.aggregateId aggregate) firstName in
  applyEvent aggregate event true.

End EarlierUser.

(** ** Notions for reading the directory against the aggregates *)

Module Views.

Import Event.

(** The identifiers of the [UserCreated] events of a stream, in order. *)
Definition createdIds (events : list User.UserEvent) : list AggregateId :=
  omap (λ e, match e with
             | User.UserCreated id _ _ _ => Some id
             | _ => None
             end) events.

(** The events of one aggregate in a stream. *)
Definition eventsOf (id : AggregateId) (events : list User.UserEvent)
    : list User.UserEvent :=
  filter (λ e, aggregateId e = id) events.

(** The state of the aggregate [id] after the whole stream. *)
Definition stateOf (id : AggregateId) (events : list User.UserEvent)
    : User.UserState :=
  foldl User.applyEventToState User.emptyState (eventsOf id events).

(** What the projection keeps of a user state. *)
Definition project (state : User.UserState) : UserDirectory.UserProjection :=
  {| UserDirectory.projFirstName := User.firstName state;
     UserDirectory.projLastName := User.lastName state;
     UserDirectory.projPhoneNumber := User.phoneNumber state |}.

(** An event that sets the first name, and with it the display name. *)
Definition setsName (e : User.UserEvent) : Prop :=
  match e with
  | User.UserCreated _ _ _ _ | User.FirstNameUpdated _ _ => True
  | User.PhoneNumberUpdated _ _ => False
  end.

(** The phone number [User.create] puts in the payload: the argument when
    it is given and not the empty string. *)
Definition givenPhone (phoneNumber : option string) : option string :=
  match phoneNumber with
  | Some p => if decide (p = "") then None else Some p
  | None => None
  end.

(** The directory entry the state of aggregate [id] gives rise to. *)
Definition entryOf (events : list User.UserEvent) (id : AggregateId)
    : option UserDirectory.DirectoryEntry :=
  (λ phoneNumber,
     {| UserDirectory.id := id;
        UserDirectory.displayName := User.displayName (stateOf id events);
        UserDirectory.phoneNumber := phoneNumber |})
  <$> User.phoneNumber (stateOf id events).

(** The first occurrences of a list, in order. *)
Definition firstOccurrences (ids : list string) : list string :=
  reverse (remove_dups (reverse ids)).

End Views.

(** * Properties *)

Import Event.

(** ** The aggregate engine *)

Section AggregateEngine.

Context {State E : Type} (reduce : State → E → State).

Implicit Types (a : Aggregate.Aggregate State E) (e : E) (isNew : bool).

Lemma makeFactory_fresh (state0 : State) (id : AggregateId) :
  Aggregate.version (@Aggregate.makeFactory State E state0 id) = 0%Z
  ∧ Aggregate.committedChanges (@Aggregate.makeFactory State E state0 id) = []
  ∧ Aggregate.uncommittedChanges (@Aggregate.makeFactory State E state0 id)
    = [].
Proof. by cbn. Qed.

Lemma applyEvent_version a e isNew :
  Aggregate.version (Aggregate.makeEventApplier reduce a e isNew)
  = (Aggregate.version a + 1)%Z.
Proof. reflexivity. Qed.

Lemma applyEvent_changes_length a e isNew :
  length (Aggregate.committedChanges
            (Aggregate.makeEventApplier reduce a e isNew))
  + length (Aggregate.uncommittedChanges
              (Aggregate.makeEventApplier reduce a e isNew))
  = S (length (Aggregate.committedChanges a)
       + length (Aggregate.uncommittedChanges a)).
Proof. destruct isNew; cbn; rewrite length_app; cbn; lia. Qed.

Lemma reachable_version (state0 : State) (id : AggregateId) a :
  Aggregate.reachable reduce state0 id a →
  Aggregate.version a
  = Z.of_nat (length (Aggregate.committedChanges a)
              + length (Aggregate.uncommittedChanges a)).
Proof.
  induction 1 as [|a e isNew _ IH|a _ IH].
  - reflexivity.
  - rewrite applyEvent_version, applyEvent_changes_length, IH. lia.
  - cbn. rewrite length_app, Nat.add_0_r. exact IH.
Qed.

(** The identifier given to the factory stays with the aggregate. *)
Lemma reachable_aggregateId (state0 : State) (id : AggregateId) a :
  Aggregate.reachable reduce state0 id a → Aggregate.aggregateId a = id.
Proof. induction 1; cbn; auto. Qed.

(** C1: a fresh aggregate has version 0 and no changes; every event
    application adds exactly one to the version, whatever the flag; and
    on every aggregate reachable from the factory by event applications
    and commit markings the version is the number of committed plus
    uncommitted changes. *)
Theorem version_counts_changes (state0 : State) (id : AggregateId) a :
  Aggregate.reachable reduce state0 id a →
  (Aggregate.version (@Aggregate.makeFactory State E state0 id) = 0%Z
   ∧ Aggregate.committedChanges (@Aggregate.makeFactory State E state0 id)
     = []
   ∧ Aggregate.uncommittedChanges (@Aggregate.makeFactory State E state0 id)
     = [])
  ∧ (∀ e isNew,
       Aggregate.version (Aggregate.makeEventApplier reduce a e isNew)
       = (Aggregate.version a + 1)%Z)
  ∧ Aggregate.version a
    = Z.of_nat (length (Aggregate.committedChanges a)
                + length (Aggregate.uncommittedChanges a)).
Proof.
  intros Hreach. split; [apply makeFactory_fresh|]. split.
  - intros e isNew. apply applyEvent_version.
  - eapply reachable_version, Hreach.
Qed.

(** A new cell never overwrites one in use. *)
Lemma alloc_spec (h : gmap positive (Aggregate.Aggregate State E)) a :
  h !! (Aggregate.alloc h a).2 = None
  ∧ (Aggregate.alloc h a).1 !! (Aggregate.alloc h a).2 = Some a
  ∧ ∀ r0 a0, h !! r0 = Some a0 → (Aggregate.alloc h a).1 !! r0 = Some a0.
Proof.
  unfold Aggregate.alloc. cbn.
  assert (Hfresh : h !! fresh (dom h) = None).
  { apply not_elem_of_dom, is_fresh. }
  split; [exact Hfresh|]. split; [apply lookup_insert_eq|].
  intros r0 a0 Hr0. rewrite lookup_insert_ne; [exact Hr0|].
  intros <-. congruence.
Qed.

(** C2: the event applier returns an aggregate whose state is the reducer
    applied to the old state and the event; a new event goes to the end of
    the uncommitted changes and a replayed one to the end of the committed
    changes, the other list being kept; and the object passed in is left
    as it was: the result is a new object and every object of the heap,
    the argument included, still holds its value. *)
Theorem applyEvent_spec (h : gmap positive (Aggregate.Aggregate State E))
    (self : positive) a e isNew :
  h !! self = Some a →
  let a' := Aggregate.makeEventApplier reduce a e isNew in
  Aggregate.state a' = reduce (Aggregate.state a) e
  ∧ (if isNew
     then Aggregate.uncommittedChanges a'
          = Aggregate.uncommittedChanges a ++ [e]
          ∧ Aggregate.committedChanges a' = Aggregate.committedChanges a
     else Aggregate.committedChanges a'
          = Aggregate.committedChanges a ++ [e]
          ∧ Aggregate.uncommittedChanges a'
            = Aggregate.uncommittedChanges a)
  ∧ ∃ h' r,
      Aggregate.applyEventRef reduce h self e isNew = Some (h', r)
      ∧ h' !! r = Some a'
      ∧ h' !! self = Some a
      ∧ ∀ r0 a0, h !! r0 = Some a0 → h' !! r0 = Some a0.
Proof.
  intros Hself a'. split; [reflexivity|]. split.
  - destruct isNew; split; reflexivity.
  - destruct (alloc_spec h a') as (_ & Hnew & Hold).
    exists (Aggregate.alloc h a').1, (Aggregate.alloc h a').2.
    split.
    + unfold Aggregate.applyEventRef. rewrite Hself. reflexivity.
    + split; [exact Hnew|]. split; [by apply Hold|exact Hold].
Qed.

(** C3: marking the changes as committed moves the uncommitted changes,
    in order, behind the committed ones and leaves no uncommitted change;
    doing it a second time changes nothing. *)
Theorem markChangesAsCommitted_spec a :
  Aggregate.committedChanges (Aggregate.markChangesAsCommitted a)
  = Aggregate.committedChanges a ++ Aggregate.uncommittedChanges a
  ∧ Aggregate.uncommittedChanges (Aggregate.markChangesAsCommitted a) = []
  ∧ Aggregate.markChangesAsCommitted (Aggregate.markChangesAsCommitted a)
    = Aggregate.markChangesAsCommitted a.
Proof.
  split; [reflexivity|]. split; [reflexivity|].
  unfold Aggregate.markChangesAsCommitted. cbn. by rewrite app_nil_r.
Qed.

(** Applying [n] events to a fresh aggregate, with any flags, gives
    version [n]. *)
Lemma version_after_events (state0 : State) (id : AggregateId)
    (steps : list (E * bool)) :
  Aggregate.version
    (foldl (λ a s, Aggregate.makeEventApplier reduce a s.1 s.2)
       (Aggregate.makeFactory state0 id) steps)
  = Z.of_nat (length steps).
Proof.
  induction steps as [|s steps IH] using rev_ind; [reflexivity|].
  rewrite foldl_snoc, applyEvent_version, IH, length_app. cbn. lia.
Qed.

End AggregateEngine.

(** ** The event stores *)

Section ListFilter.

Context {A : Type} (P : A → Prop) `{∀ x, Decision (P x)}.

Lemma filter_keeps_all (l : list A) : Forall P l → filter P l = l.
Proof.
  induction 1 as [|x l Hx _ IH]; [reflexivity|].
  by rewrite filter_cons_True, IH.
Qed.

Lemma filter_keeps_none (l : list A) :
  Forall (λ x, ¬ P x) l → filter P l = [].
Proof.
  induction 1 as [|x l Hx _ IH]; [reflexivity|].
  by rewrite filter_cons_False.
Qed.

Lemma Forall_filter_holds (l : list A) : Forall P (filter P l).
Proof.
  apply Forall_forall. intros x Hx.
  by apply list_elem_of_filter in Hx as [? _].
Qed.

End ListFilter.

Section EventStores.

Context {E : Type} `{AnyEvent E}.

Implicit Types (storedEvents events : list E)
  (eventsByAggregate : gmap string (list E))
  (id : AggregateId) (tags : list string).

(** On the single log, loading for an aggregate is one pass that keeps
    the events of that aggregate with a requested tag. *)
Lemma loadEventsForAggregate_filter storedEvents id tags :
  EventStore.loadEventsForAggregate storedEvents id tags
  = filter (λ e, aggregateId e = id ∧ _tag e ∈ tags) storedEvents.
Proof.
  cbn. rewrite list_filter_filter. apply list_filter_iff.
  intros e. unfold EventStore.hasMatchingTag. tauto.
Qed.

Lemma only_UserCreated_tag (l : list E) :
  Forall (EventStore.hasMatchingTag ["UserCreated"]) l →
  Forall (λ e, _tag e ≠ "FirstNameUpdated") l.
Proof.
  intros Hl. eapply Forall_impl; [exact Hl|]. intros e He Htag.
  unfold EventStore.hasMatchingTag in He. rewrite Htag in He.
  apply list_elem_of_singleton in He. discriminate He.
Qed.

(** C7: loading the events of an aggregate returns, in stored order,
    exactly the stored events of that aggregate whose tag is among the
    requested ones; asked for "UserCreated" alone it never returns a
    "FirstNameUpdated" event.  The same holds of the per-aggregate
    store, whose events of an aggregate are the array kept under its
    identifier. *)
Theorem loadEventsForAggregate_spec storedEvents eventsByAggregate id tags :
  EventStore.loadEventsForAggregate storedEvents id tags
  = filter (λ e, aggregateId e = id ∧ _tag e ∈ tags) storedEvents
  ∧ Forall (λ e, _tag e ≠ "FirstNameUpdated")
      (EventStore.loadEventsForAggregate storedEvents id ["UserCreated"])
  ∧ EventStoreByAggregate.loadEvents eventsByAggregate id tags
    = filter (λ e, _tag e ∈ tags) (default [] (eventsByAggregate !! id))
  ∧ Forall (λ e, _tag e ≠ "FirstNameUpdated")
      (EventStoreByAggregate.loadEvents eventsByAggregate id ["UserCreated"]).
Proof.
  split; [apply loadEventsForAggregate_filter|]. split.
  { apply only_UserCreated_tag. cbn. apply Forall_filter_holds. }
  unfold EventStoreByAggregate.loadEvents. split.
  - by destruct (eventsByAggregate !! id).
  - apply only_UserCreated_tag.
    destruct (eventsByAggregate !! id); cbn; [|constructor].
    apply Forall_filter_holds.
Qed.

(** Saving on the single log: whatever identifier is passed, an aggregate
    gains the saved events that carry its own identifier. *)
Lemma saveEvents_load_log storedEvents events id id' tags :
  EventStore.loadEventsForAggregate
    (EventStore.saveEvents storedEvents id' events) id tags
  = EventStore.loadEventsForAggregate storedEvents id tags
    ++ filter (EventStore.hasMatchingTag tags)
         (filter (λ e, aggregateId e = id) events).
Proof. cbn. by rewrite !filter_app. Qed.

(** Saving on the per-aggregate store: the array under the identifier
    passed gains all the saved events. *)
Lemma saveEvents_load_byAggregate eventsByAggregate events id tags :
  EventStoreByAggregate.loadEvents
    (EventStoreByAggregate.saveEvents eventsByAggregate id events) id tags
  = EventStoreByAggregate.loadEvents eventsByAggregate id tags
    ++ filter (EventStore.hasMatchingTag tags) events.
Proof.
  unfold EventStoreByAggregate.loadEvents, EventStoreByAggregate.saveEvents.
  rewrite lookup_insert_eq. cbn. rewrite filter_app.
  by destruct (eventsByAggregate !! id).
Qed.

Lemma saveEvents_other_byAggregate eventsByAggregate events id id' tags :
  id ≠ id' →
  EventStoreByAggregate.loadEvents
    (EventStoreByAggregate.saveEvents eventsByAggregate id events) id' tags
  = EventStoreByAggregate.loadEvents eventsByAggregate id' tags.
Proof.
  intros Hne.
  unfold EventStoreByAggregate.loadEvents, EventStoreByAggregate.saveEvents.
  by rewrite lookup_insert_ne.
Qed.

(** C6, amended: when the saved events all carry the identifier they are
    saved under, the events loadable for that aggregate afterwards, for
    any tag list, are the ones loadable before followed by the saved
    events with a requested tag, in order; when the tag list covers the
    saved events these are all of them, none left out.  The
    per-aggregate store does the same. *)
Theorem saveEvents_appends storedEvents eventsByAggregate events id tags :
  Forall (λ e, aggregateId e = id) events →
  (EventStore.loadEventsForAggregate
     (EventStore.saveEvents storedEvents id events) id tags
   = EventStore.loadEventsForAggregate storedEvents id tags
     ++ filter (EventStore.hasMatchingTag tags) events
   ∧ EventStoreByAggregate.loadEvents
       (EventStoreByAggregate.saveEvents eventsByAggregate id events) id tags
     = EventStoreByAggregate.loadEvents eventsByAggregate id tags
       ++ filter (EventStore.hasMatchingTag tags) events)
  ∧ (Forall (EventStore.hasMatchingTag tags) events →
     EventStore.loadEventsForAggregate
       (EventStore.saveEvents storedEvents id events) id tags
     = EventStore.loadEventsForAggregate storedEvents id tags ++ events
     ∧ EventStoreByAggregate.loadEvents
         (EventStoreByAggregate.saveEvents eventsByAggregate id events)
         id tags
       = EventStoreByAggregate.loadEvents eventsByAggregate id tags
         ++ events).
Proof.
  intros Hid.
  rewrite saveEvents_load_log, saveEvents_load_byAggregate.
  rewrite (filter_keeps_all _ events Hid).
  split; [done|]. intros Htags.
  by rewrite (filter_keeps_all _ events Htags).
Qed.

End EventStores.

(** ** The user aggregate and its repository *)

Section UserAggregate.

Implicit Types (a : User.UserAggregate) (S : list User.UserEvent)
  (id : AggregateId) (storedEvents : list User.UserEvent).

Lemma replay_state a S :
  Aggregate.state (Demo.replay a S)
  = foldl User.applyEventToState (Aggregate.state a) S.
Proof.
  revert a. induction S as [|e S IH]; intros a; [reflexivity|].
  cbn. apply IH.
Qed.

Lemma loadFromHistory_replay id S :
  User.loadFromHistory id S = Demo.replay (User.empty id) S.
Proof. reflexivity. Qed.

(** C5: the state of an aggregate loaded from a history is the left fold
    of the state reducer over that history from the empty state; and a
    replay is a function of the starting state and the events alone: from
    any aggregate, its final state is the fold of the reducer from that
    aggregate's state. *)
Theorem loadFromHistory_state id S :
  Aggregate.state (User.loadFromHistory id S)
  = foldl User.applyEventToState User.emptyState S
  ∧ ∀ a,
      Aggregate.state
        (foldl (λ agg event, User.applyEvent agg event false) a S)
      = foldl User.applyEventToState (Aggregate.state a) S.
Proof.
  split.
  - rewrite loadFromHistory_replay. apply replay_state.
  - intros a. apply replay_state.
Qed.

(** [User.EventTags] names the tag of every user event, and so does the
    list the directory repository loads with: it folds the whole log. *)
Lemma EventTags_complete (e : User.UserEvent) :
  EventStore.hasMatchingTag User.EventTags e.
Proof.
  unfold EventStore.hasMatchingTag, User.EventTags.
  destruct e; cbn; rewrite !elem_of_cons; tauto.
Qed.

Lemma load_whole_log storedEvents :
  UserDirectoryRepository.load storedEvents
  = UserDirectory.fromEvents storedEvents.
Proof.
  unfold UserDirectoryRepository.load. cbn zeta. f_equal. cbn.
  apply filter_keeps_all, Forall_forall. intros e _.
  apply EventTags_complete.
Qed.

(** Replaying onto, and applying new events to, a built aggregate. *)
Lemma replay_built id (C S : list User.UserEvent) :
  Demo.replay (Demo.built id C []) S = Demo.built id (C ++ S) [].
Proof.
  revert C. induction S as [|e S IH]; intros C.
  - by rewrite app_nil_r.
  - cbn. replace (C ++ e :: S) with ((C ++ [e]) ++ S)
      by (by rewrite <- (assoc_L (++))).
    rewrite <- IH. f_equal.
    unfold Demo.built, User.applyEvent, Aggregate.makeEventApplier. cbn.
    f_equal.
    + by rewrite !app_nil_r, foldl_snoc.
    + rewrite length_app. cbn. lia.
Qed.

Lemma loadFromHistory_built id S :
  User.loadFromHistory id S = Demo.built id S [].
Proof. rewrite loadFromHistory_replay. apply (replay_built id [] S). Qed.

Lemma perform_built id (C U : list User.UserEvent) (us : list Demo.Update) :
  foldl Demo.perform (Demo.built id C U) us
  = Demo.built id C (U ++ (Demo.eventOf id <$> us)).
Proof.
  revert U. induction us as [|u us IH]; intros U.
  - cbn. by rewrite app_nil_r.
  - cbn. replace (U ++ Demo.eventOf id u :: (Demo.eventOf id <$> us))
      with ((U ++ [Demo.eventOf id u]) ++ (Demo.eventOf id <$> us))
      by (by rewrite <- (assoc_L (++))).
    rewrite <- IH. f_equal.
    destruct u; unfold Demo.built, Demo.perform, User.updateFirstName,
      User.updatePhoneNumber, User.applyEvent, Aggregate.makeEventApplier;
      cbn; f_equal;
      first [ by rewrite (assoc_L (++)), foldl_snoc
            | rewrite length_app; cbn; lia ].
Qed.

Lemma markChangesAsCommitted_built id (C U : list User.UserEvent) :
  Aggregate.markChangesAsCommitted (Demo.built id C U)
  = Demo.built id (C ++ U) [].
Proof.
  unfold Demo.built, Aggregate.markChangesAsCommitted. cbn. f_equal.
  - by rewrite app_nil_r.
  - rewrite length_app. lia.
Qed.

(** What the repository reloads of the events of a list of updates: the
    first-name updates only. *)
Lemma getById_tags_of_updates id (us : list Demo.Update) :
  filter (EventStore.hasMatchingTag ["UserCreated"; "FirstNameUpdated"])
    (filter (λ e, aggregateId e = id) (Demo.eventOf id <$> us))
  = Demo.eventOf id <$> filter Demo.isSetFirstName us.
Proof.
  induction us as [|u us IH]; [reflexivity|].
  rewrite fmap_cons, (filter_cons_True (λ e, aggregateId e = id));
    [|by destruct u].
  destruct u as [f|p].
  - rewrite filter_cons_True
      by (unfold EventStore.hasMatchingTag; cbn; repeat constructor).
    rewrite (filter_cons_True Demo.isSetFirstName) by done.
    by rewrite fmap_cons, IH.
  - rewrite filter_cons_False.
    + rewrite (filter_cons_False Demo.isSetFirstName) by (cbn; tauto).
      exact IH.
    + unfold EventStore.hasMatchingTag. cbn.
      rewrite !elem_of_cons, elem_of_nil.
      intros [?|[?|[]]]; discriminate.
Qed.

(** Load, update, save, load again: the second load returns the saved
    aggregate as it would be had the phone-number updates not been made. *)
Lemma save_getById storedEvents id (us : list Demo.Update) :
  let a := foldl Demo.perform (UserRepository.getById storedEvents id) us in
  UserRepository.getById (UserRepository.save storedEvents a).1 id
  = Aggregate.markChangesAsCommitted
      (foldl Demo.perform (UserRepository.getById storedEvents id)
         (filter Demo.isSetFirstName us)).
Proof.
  unfold UserRepository.getById, UserRepository.save, EventStore.commit.
  cbv zeta. rewrite !loadFromHistory_built, !perform_built.
  cbn [fst Aggregate.uncommittedChanges Aggregate.aggregateId Demo.built app].
  rewrite saveEvents_load_log, getById_tags_of_updates.
  by rewrite markChangesAsCommitted_built.
Qed.

(** Without phone-number updates the round trip is exact. *)
Lemma save_getById_names storedEvents id (us : list Demo.Update) :
  Forall Demo.isSetFirstName us →
  let a := foldl Demo.perform (UserRepository.getById storedEvents id) us in
  UserRepository.getById (UserRepository.save storedEvents a).1 id
  = (UserRepository.save storedEvents a).2.
Proof.
  intros Hus a. unfold a. rewrite save_getById.
  by rewrite (filter_keeps_all _ us Hus).
Qed.

(** C4: at the end of the demonstration session, Robert is loaded,
    renamed, given the phone number "555-1234" and saved; loading him
    again returns a state without phone number, different from the state
    that was saved, and a history without the phone-number update. *)
Theorem save_getById_drops_phoneNumber :
  let store := Demo.main.1 in
  let robert := Demo.main.2 in
  Aggregate.state robert
  = {| User.firstName := "Bob"; User.lastName := "Smith";
       User.displayName := "Bob Smith";
       User.phoneNumber := Some "555-1234" |}
  ∧ Aggregate.state (UserRepository.getById store "user-001")
    = {| User.firstName := "Bob"; User.lastName := "Smith";
         User.displayName := "Bob Smith";
         User.phoneNumber := None |}
  ∧ Aggregate.state (UserRepository.getById store "user-001")
    ≠ Aggregate.state robert
  ∧ Aggregate.committedChanges (UserRepository.getById store "user-001")
    = [User.UserCreated "user-001" "Robert" "Smith" None;
       User.FirstNameUpdated "user-001" "Bob"]
  ∧ filter (λ e, aggregateId e = "user-001") store
    = [User.UserCreated "user-001" "Robert" "Smith" None;
       User.FirstNameUpdated "user-001" "Bob";
       User.PhoneNumberUpdated "user-001" "555-1234"].
Proof.
  cbn zeta. split; [reflexivity|]. split; [reflexivity|].
  split; [|split; reflexivity].
  vm_compute. discriminate.
Qed.

(** C8: an identifier without stored events is no error: nothing is
    loaded for it, and the repository returns a fresh aggregate for it,
    with the empty state, version 0 and no changes. *)
Theorem getById_unknown storedEvents id :
  Forall (λ e, aggregateId e ≠ id) storedEvents →
  (∀ tags, EventStore.loadEventsForAggregate storedEvents id tags = [])
  ∧ UserRepository.getById storedEvents id
    = {| Aggregate.aggregateId := id;
         Aggregate.state := User.emptyState;
         Aggregate.committedChanges := [];
         Aggregate.uncommittedChanges := [];
         Aggregate.version := 0 |}.
Proof.
  intros Hnone.
  assert (Hload : ∀ tags,
    EventStore.loadEventsForAggregate storedEvents id tags = []).
  { intros tags. cbn.
    by rewrite (filter_keeps_none (λ e, aggregateId e = id) _ Hnone). }
  split; [exact Hload|].
  unfold UserRepository.getById. by rewrite Hload.
Qed.

(** C6, as stated, fails on the single log: an event saved under another
    identifier than its own is not loadable for the identifier it was
    saved under. *)
Lemma saveEvents_foreign_event :
  ¬ ∀ (storedEvents events : list User.UserEvent) (id : AggregateId),
      EventStore.loadEventsForAggregate
        (EventStore.saveEvents storedEvents id events) id User.EventTags
      = EventStore.loadEventsForAggregate storedEvents id User.EventTags
        ++ events.
Proof.
  intros Hall.
  specialize (Hall [] [User.FirstNameUpdated "user-002" "Bob"] "user-001").
  vm_compute in Hall. discriminate Hall.
Qed.

End UserAggregate.

(** ** Records *)

Section Records.

Context {V : Type}.

Implicit Types (self : list (string * V)) (key k : string) (value : V).

Lemma indexed_entries self :
  (Record.indexed self).*2
  = filter (λ kv, ¬ Record.arrayIndex kv.1 = None) self.
Proof.
  induction self as [|[k v] self IH]; [reflexivity|].
  unfold Record.indexed in *. cbn [omap list_omap fst].
  destruct (Record.arrayIndex k) as [n|] eqn:Hk; cbn [fmap option_fmap option_map].
  - rewrite filter_cons_True by (cbn; congruence).
    rewrite fmap_cons. cbn. by rewrite IH.
  - rewrite filter_cons_False by (cbn; rewrite Hk; tauto). exact IH.
Qed.

(** Enumeration reorders the properties and neither adds nor loses one. *)
Lemma ownEntries_Permutation self : Record.ownEntries self ≡ₚ self.
Proof.
  unfold Record.ownEntries.
  rewrite (merge_sort_Permutation Record.indexLe (Record.indexed self)).
  rewrite indexed_entries, Permutation_app_comm.
  apply filter_app_complement.
Qed.

Lemma define_keys key value self k :
  k ∈ (Record.define key value self).*1 ↔ k = key ∨ k ∈ self.*1.
Proof.
  induction self as [|[k' v'] self IH]; cbn.
  - rewrite list_elem_of_singleton, elem_of_nil. tauto.
  - destruct (decide (k' = key)) as [->|Hne]; cbn.
    + rewrite !elem_of_cons. tauto.
    + rewrite !elem_of_cons, IH. tauto.
Qed.

Lemma set_keys self key value k :
  k ∈ (Record.set self key value).*1 ↔ k = key ∨ k ∈ self.*1.
Proof.
  unfold Record.set. rewrite define_keys.
  by rewrite (ownEntries_Permutation self).
Qed.

Lemma get_None self key : Record.get self key = None ↔ key ∉ self.*1.
Proof.
  induction self as [|[k v] self IH]; cbn.
  - split; [intros _; apply not_elem_of_nil|done].
  - rewrite not_elem_of_cons. destruct (decide (k = key)) as [->|Hne].
    + split; [discriminate|]. intros [Hne _]. by destruct Hne.
    + rewrite IH. split; [by split|tauto].
Qed.

(** [Record.get] answers [some] exactly on the own properties, as the
    test [Record.has] of the source decides. *)
Lemma get_has self key :
  Record.has self key = true ↔ is_Some (Record.get self key).
Proof.
  unfold Record.has. rewrite bool_decide_eq_true.
  rewrite <- not_eq_None_Some, get_None.
  split; [tauto|]. intros Hnn.
  by destruct (decide (key ∈ self.*1)).
Qed.

Lemma get_Some_key self key value :
  Record.get self key = Some value → key ∈ self.*1.
Proof.
  intros Hget. destruct (decide (key ∈ self.*1)) as [|Hnot]; [done|].
  apply get_None in Hnot. congruence.
Qed.

Lemma define_fresh self key value :
  key ∉ self.*1 → Record.define key value self = self ++ [(key, value)].
Proof.
  induction self as [|[k v] self IH]; cbn; [done|].
  rewrite not_elem_of_cons. intros [Hne Hnot].
  rewrite decide_False by done. by rewrite IH.
Qed.

End Records.

(** ** The user directory projection *)

Section Projection.

Implicit Types (users : list (string * UserDirectory.UserProjection))
  (S : list User.UserEvent) (e : User.UserEvent) (k : string).

(** Only a [UserCreated] event brings a new key into the projection. *)
Lemma applyEvent_keys users e k :
  k ∈ (UserDirectory.applyEvent users e).*1 →
  k ∈ users.*1 ∨ (_tag e = "UserCreated" ∧ aggregateId e = k).
Proof.
  destruct e as [id f l p|id f|id p]; cbn.
  - rewrite set_keys. intros [->|Hk]; [right; done|by left].
  - destruct (Record.get users id) as [existing|] eqn:Hget; cbn; [|by left].
    rewrite set_keys. intros [->|Hk]; left; [|done].
    by eapply get_Some_key.
  - destruct (Record.get users id) as [existing|] eqn:Hget; cbn; [|by left].
    rewrite set_keys. intros [->|Hk]; left; [|done].
    by eapply get_Some_key.
Qed.

Lemma foldl_applyEvent_keys S users k :
  k ∈ (foldl UserDirectory.applyEvent users S).*1 →
  k ∈ users.*1 ∨ Demo.createdIn k S.
Proof.
  revert users. induction S as [|e S IH]; intros users; cbn; [by left|].
  intros Hk. destruct (IH _ Hk) as [Hk'|Hk'].
  - destruct (applyEvent_keys _ _ _ Hk') as [?|?]; [by left|].
    right. by apply Exists_cons_hd.
  - right. by apply Exists_cons_tl.
Qed.

(** An update for an identifier that is not a key is ignored. *)
Lemma applyEvent_orphan users e :
  _tag e = "FirstNameUpdated" ∨ _tag e = "PhoneNumberUpdated" →
  aggregateId e ∉ users.*1 →
  UserDirectory.applyEvent users e = users.
Proof.
  intros Htag Hkey. apply get_None in Hkey.
  destruct e as [id f l p|id f|id p]; cbn in *.
  - destruct Htag; discriminate.
  - by rewrite Hkey.
  - by rewrite Hkey.
Qed.

(** C10: a [FirstNameUpdated] or [PhoneNumberUpdated] event whose
    aggregate has no [UserCreated] event earlier in the stream is ignored
    by the fold: the projection state is the one before the event, and so
    is the directory. *)
Theorem fromEvents_orphan_update S e :
  _tag e = "FirstNameUpdated" ∨ _tag e = "PhoneNumberUpdated" →
  ¬ Demo.createdIn (aggregateId e) S →
  UserDirectory.applyEvent (foldl UserDirectory.applyEvent Record.empty S) e
  = foldl UserDirectory.applyEvent Record.empty S
  ∧ UserDirectory.fromEvents (S ++ [e]) = UserDirectory.fromEvents S.
Proof.
  intros Htag Horphan.
  assert (Hsame :
    UserDirectory.applyEvent (foldl UserDirectory.applyEvent Record.empty S) e
    = foldl UserDirectory.applyEvent Record.empty S).
  { apply applyEvent_orphan; [exact Htag|]. intros Hkey.
    apply foldl_applyEvent_keys in Hkey as [Hkey|Hkey]; [|by apply Horphan].
    by apply elem_of_nil in Hkey. }
  split; [exact Hsame|].
  unfold UserDirectory.fromEvents. cbv zeta. by rewrite foldl_snoc, Hsame.
Qed.

(** The directory lists the users with a phone number, up to the order
    of enumeration, and counts all keys. *)
Lemma toDirectory_entries users :
  UserDirectory.totalUsers (UserDirectory.toDirectory users) = length users
  ∧ UserDirectory.usersWithPhone (UserDirectory.toDirectory users)
    = length (UserDirectory.entries (UserDirectory.toDirectory users))
  ∧ UserDirectory.entries (UserDirectory.toDirectory users)
    ≡ₚ omap UserDirectory.toEntry users.
Proof.
  unfold UserDirectory.toDirectory, Record.toEntries. cbn.
  split; [|split; [reflexivity|]].
  - by rewrite (ownEntries_Permutation users).
  - by rewrite (ownEntries_Permutation users).
Qed.

(** C9: two users are created under different identifiers, the first
    without phone number and the second with "555-5678"; the directory
    counts two users, one of them with a phone, and has the one entry of
    the second user, with that phone number. *)
Theorem fromEvents_two_users (id1 id2 : AggregateId)
    (firstName1 lastName1 firstName2 lastName2 : string) :
  id1 ≠ id2 →
  UserDirectory.fromEvents
    [User.UserCreated id1 firstName1 lastName1 None;
     User.UserCreated id2 firstName2 lastName2 (Some "555-5678")]
  = {| UserDirectory.totalUsers := 2;
       UserDirectory.usersWithPhone := 1;
       UserDirectory.entries :=
         [{| UserDirectory.id := id2;
             UserDirectory.displayName := firstName2 +:+ " " +:+ lastName2;
             UserDirectory.phoneNumber := "555-5678" |}] |}.
Proof.
  intros Hne. unfold UserDirectory.fromEvents. cbv zeta.
  cbn [foldl UserDirectory.applyEvent].
  set (p1 := UserDirectory.mkUserProjection firstName1 lastName1 None).
  set (p2 := UserDirectory.mkUserProjection firstName2 lastName2
               (Some "555-5678")).
  assert (Hone : Record.set Record.empty id1 p1 = [(id1, p1)]) by reflexivity.
  assert (Htwo : Record.set [(id1, p1)] id2 p2 = [(id1, p1); (id2, p2)]).
  { unfold Record.set.
    rewrite (proj1 (Permutation_singleton_r _ _)
               (ownEntries_Permutation [(id1, p1)])).
    cbn. by rewrite decide_False. }
  rewrite Hone, Htwo.
  destruct (toDirectory_entries [(id1, p1); (id2, p2)])
    as (Htotal & Hphone & Hentries).
  change (omap UserDirectory.toEntry [(id1, p1); (id2, p2)])
    with [UserDirectory.mkDirectoryEntry id2
            (firstName2 +:+ " " +:+ lastName2) "555-5678"] in Hentries.
  apply Permutation_singleton_r in Hentries.
  rewrite Hentries in Hphone.
  destruct (UserDirectory.toDirectory _) as [total phone entries].
  cbn in *. by subst.
Qed.

End Projection.

(** ** The properties at work on the demonstration data *)

Section Instances.

Import Demo.

(** Robert, created, renamed and marked as committed, is at version 2
    with two changes. *)
Lemma version_counts_changes_witness :
  let a :=
    Aggregate.markChangesAsCommitted (User.updateFirstName robert "Bob") in
  Aggregate.reachable User.applyEventToState User.emptyState "user-001" a
  ∧ Aggregate.version a = 2%Z
  ∧ Aggregate.version a
    = Z.of_nat (length (Aggregate.committedChanges a)
                + length (Aggregate.uncommittedChanges a)).
Proof.
  intros a.
  assert (Hreach :
    Aggregate.reachable User.applyEventToState User.emptyState "user-001" a).
  { apply Aggregate.reachable_commit.
    apply (Aggregate.reachable_apply _ _ _ robert renamed true).
    apply (Aggregate.reachable_apply _ _ _ (User.empty "user-001")
             created true).
    apply Aggregate.reachable_factory. }
  split; [exact Hreach|]. split; [reflexivity|].
  exact (proj2 (proj2
    (version_counts_changes User.applyEventToState User.emptyState
       "user-001" a Hreach))).
Defined.

(** Creating Robert from the empty aggregate held in cell 1 leaves that
    cell as it was. *)
Lemma applyEvent_spec_witness :
  let h : gmap positive User.UserAggregate :=
    {[ 1%positive := User.empty "user-001" ]} in
  h !! 1%positive = Some (User.empty "user-001")
  ∧ ∃ h' r,
      Aggregate.applyEventRef User.applyEventToState h 1%positive created
        true = Some (h', r)
      ∧ h' !! r = Some robert
      ∧ h' !! 1%positive = Some (User.empty "user-001").
Proof.
  intros h.
  assert (Hself : h !! 1%positive = Some (User.empty "user-001"))
    by reflexivity.
  split; [exact Hself|].
  destruct (applyEvent_spec User.applyEventToState h 1%positive
              (User.empty "user-001") created true Hself)
    as (_ & _ & h' & r & Hrun & Hnew & Hold & _).
  exists h', r. split; [exact Hrun|]. split; [exact Hnew|exact Hold].
Defined.

(** Saving Robert's renaming after his creation, on either store. *)
Lemma saveEvents_appends_witness :
  Forall (λ e, aggregateId e = "user-001") [renamed]
  ∧ Forall (EventStore.hasMatchingTag User.EventTags) [renamed]
  ∧ EventStore.loadEventsForAggregate
      (EventStore.saveEvents [created] "user-001" [renamed]) "user-001"
      User.EventTags
    = [created; renamed]
  ∧ EventStoreByAggregate.loadEvents
      (EventStoreByAggregate.saveEvents {[ "user-001" := [created] ]}
         "user-001" [renamed]) "user-001" User.EventTags
    = [created; renamed].
Proof.
  assert (Hid : Forall (λ e, aggregateId e = "user-001") [renamed])
    by (by apply (bool_decide_unpack _)).
  assert (Htags : Forall (EventStore.hasMatchingTag User.EventTags) [renamed])
    by (by apply (bool_decide_unpack _)).
  split; [exact Hid|]. split; [exact Htags|].
  exact (proj2
    (saveEvents_appends [created] {[ "user-001" := [created] ]}
       [renamed] "user-001" User.EventTags Hid) Htags).
Defined.

(** Alice is unknown to a store that only holds Robert. *)
Lemma getById_unknown_witness :
  Forall (λ e, aggregateId e ≠ "user-002") [created; renamed]
  ∧ UserRepository.getById [created; renamed] "user-002"
    = User.empty "user-002".
Proof.
  assert (Hnone : Forall (λ e, aggregateId e ≠ "user-002") [created; renamed])
    by (by apply (bool_decide_unpack _)).
  split; [exact Hnone|].
  exact (proj2 (getById_unknown [created; renamed] "user-002" Hnone)).
Defined.

(** The directory of the demonstration after the two creations. *)
Lemma fromEvents_two_users_witness :
  "user-001" ≠ "user-002"
  ∧ UserDirectory.fromEvents
      [created; User.UserCreated "user-002" "Alice" "Smith" (Some "555-5678")]
    = {| UserDirectory.totalUsers := 2;
         UserDirectory.usersWithPhone := 1;
         UserDirectory.entries :=
           [{| UserDirectory.id := "user-002";
               UserDirectory.displayName := "Alice Smith";
               UserDirectory.phoneNumber := "555-5678" |}] |}.
Proof.
  assert (Hne : "user-001" ≠ "user-002") by discriminate.
  split; [exact Hne|].
  exact (fromEvents_two_users "user-001" "user-002" "Robert" "Smith"
           "Alice" "Smith" Hne).
Defined.

(** A phone number for Alice, who was never created, changes nothing. *)
Lemma fromEvents_orphan_update_witness :
  let e := User.PhoneNumberUpdated "user-002" "555-5678" in
  (_tag e = "FirstNameUpdated" ∨ _tag e = "PhoneNumberUpdated")
  ∧ ¬ Demo.createdIn (aggregateId e) [created; renamed]
  ∧ UserDirectory.fromEvents ([created; renamed] ++ [e])
    = UserDirectory.fromEvents [created; renamed].
Proof.
  intros e.
  assert (Htag : _tag e = "FirstNameUpdated" ∨ _tag e = "PhoneNumberUpdated")
    by (right; reflexivity).
  assert (Horphan : ¬ Demo.createdIn (aggregateId e) [created; renamed])
    by (by apply (bool_decide_unpack _)).
  split; [exact Htag|]. split; [exact Horphan|].
  exact (proj2 (fromEvents_orphan_update [created; renamed] e Htag Horphan)).
Defined.

End Instances.

(** * Further properties of the code *)

(** ** Sessions on an aggregate *)

Section Sessions.

Context {State E : Type} (reduce : State → E → State).

Implicit Types (a : Aggregate.Aggregate State E)
  (steps : list (Session.Step E)).

Lemma run_cons a s steps :
  Session.run reduce a (s :: steps)
  = Session.run reduce (Session.step reduce a s) steps.
Proof. reflexivity. Qed.

Lemma run_state a steps :
  Aggregate.state (Session.run reduce a steps)
  = foldl reduce (Aggregate.state a) (Session.applied steps).
Proof.
  revert a. induction steps as [|[e isNew|] steps IH]; intros a.
  - reflexivity.
  - rewrite run_cons, IH. reflexivity.
  - rewrite run_cons, IH. reflexivity.
Qed.




Lemma run_orderly a pending steps :
  (pending = false → Aggregate.uncommittedChanges a = []) →
  Session.orderly pending steps →
  Aggregate.committedChanges (Session.run reduce a steps)
  ++ Aggregate.uncommittedChanges (Session.run reduce a steps)
  = Aggregate.committedChanges a ++ Aggregate.uncommittedChanges a
    ++ Session.applied steps.
Proof.
  revert a pending.
  induction steps as [|[e [|]|] steps IH]; intros a pending Hpending Hord.
  - cbn. by rewrite app_nil_r.
  - rewrite run_cons, (IH _ true); [|done|exact Hord].
    cbn. by rewrite <- (assoc_L (++) _ [e]).
  - destruct Hord as [-> Hord]. rewrite run_cons, (IH _ false); [|done|exact Hord].
    cbn. rewrite (Hpending eq_refl). cbn.
    by rewrite <- (assoc_L (++) _ [e]).
  - rewrite run_cons, (IH _ false); [|done|exact Hord].
    cbn. by rewrite <- (assoc_L (++)).
Qed.


(** X2: in a session on a fresh aggregate that replays events only while
    nothing is uncommitted, the committed changes followed by the
    uncommitted ones are the applied events in their order, and the state
    is the fold of the reducer over them. *)
Theorem orderly_session_history (state0 : State) (id : AggregateId) steps :
  Session.orderly false steps →
  let a := Session.run reduce (Aggregate.makeFactory state0 id) steps in
  Aggregate.committedChanges a ++ Aggregate.uncommittedChanges a
  = Session.applied steps
  ∧ Aggregate.state a
    = foldl reduce state0
        (Aggregate.committedChanges a ++ Aggregate.uncommittedChanges a).
Proof.
  intros Hord a.
  assert (Hhist :
    Aggregate.committedChanges a ++ Aggregate.uncommittedChanges a
    = Session.applied steps).
  { unfold a. by rewrite (run_orderly _ false steps). }
  split; [exact Hhist|]. rewrite Hhist. apply run_state.
Qed.

End Sessions.

(** Robert is replayed, renamed and committed. *)
Lemma orderly_session_history_witness :
  let steps :=
    [Session.Apply Demo.created false; Session.Apply Demo.renamed true;
     Session.Commit] in
  let a := Session.run User.applyEventToState (User.empty "user-001") steps in
  Session.orderly false steps
  ∧ Aggregate.committedChanges a ++ Aggregate.uncommittedChanges a
    = [Demo.created; Demo.renamed]
  ∧ Aggregate.state a
    = foldl User.applyEventToState User.emptyState
        (Aggregate.committedChanges a ++ Aggregate.uncommittedChanges a).
Proof.
  intros steps a.
  assert (Hord : Session.orderly false steps) by (cbn; tauto).
  split; [exact Hord|].
  exact (orderly_session_history User.applyEventToState User.emptyState
           "user-001" steps Hord).
Defined.

(** ** The event stores and the commit *)

Section StoreFacts.

Context {E : Type} `{AnyEvent E} {State : Type}.

Implicit Types (storedEvents events : list E)
  (eventsByAggregate : gmap string (list E))
  (a : Aggregate.Aggregate State E)
  (id : AggregateId) (tags : list string).

Lemma filter_swap (P Q : E → Prop) `{∀ x, Decision (P x)}
    `{∀ x, Decision (Q x)} (l : list E) :
  filter P (filter Q l) = filter Q (filter P l).
Proof.
  rewrite !list_filter_filter. apply list_filter_iff. intros x. tauto.
Qed.

(** X3: what is loaded for one aggregate is what is loaded for all,
    restricted to the events of that aggregate, in the same order. *)
Theorem loadEventsForAggregate_restricts storedEvents id tags :
  EventStore.loadEventsForAggregate storedEvents id tags
  = filter (λ e, aggregateId e = id)
      (EventStore.loadEvents storedEvents tags).
Proof. cbn. apply filter_swap. Qed.

(** X4: the log only grows at its end: after a save, under whatever
    identifier, a load over all aggregates returns what it returned
    before followed by the saved events with a requested tag. *)
Theorem saveEvents_extends_log storedEvents events id tags :
  EventStore.loadEvents (EventStore.saveEvents storedEvents id events) tags
  = EventStore.loadEvents storedEvents tags
    ++ filter (EventStore.hasMatchingTag tags) events
  ∧ EventStore.loadEvents storedEvents tags
    `prefix_of`
    EventStore.loadEvents (EventStore.saveEvents storedEvents id events) tags.
Proof.
  assert (Hload :
    EventStore.loadEvents (EventStore.saveEvents storedEvents id events) tags
    = EventStore.loadEvents storedEvents tags
      ++ filter (EventStore.hasMatchingTag tags) events).
  { cbn. apply filter_app. }
  split; [exact Hload|]. rewrite Hload. by apply prefix_app_r.
Qed.

(** X5: saving the events of one aggregate leaves the events loadable
    for any other aggregate as they were, on both stores. *)
Theorem saveEvents_isolation storedEvents eventsByAggregate events id id'
    tags :
  Forall (λ e, aggregateId e = id) events →
  id ≠ id' →
  EventStore.loadEventsForAggregate
    (EventStore.saveEvents storedEvents id events) id' tags
  = EventStore.loadEventsForAggregate storedEvents id' tags
  ∧ EventStoreByAggregate.loadEvents
      (EventStoreByAggregate.saveEvents eventsByAggregate id events) id' tags
    = EventStoreByAggregate.loadEvents eventsByAggregate id' tags.
Proof.
  intros Hid Hne. split.
  - rewrite saveEvents_load_log.
    rewrite (filter_keeps_none (λ e, aggregateId e = id') events).
    + cbn. by rewrite app_nil_r.
    + eapply Forall_impl; [exact Hid|]. cbn. congruence.
  - by apply saveEvents_other_byAggregate.
Qed.

(** X6: a commit stores exactly the uncommitted changes, behind what was
    stored, and returns the aggregate marked as committed; committing the
    returned aggregate once more changes neither the store nor the
    aggregate.  This holds on both stores. *)
Theorem commit_twice storedEvents eventsByAggregate a :
  let c := EventStore.commit a storedEvents in
  let c' := EventStoreByAggregate.commit a eventsByAggregate in
  c = (storedEvents ++ Aggregate.uncommittedChanges a,
       Aggregate.markChangesAsCommitted a)
  ∧ EventStore.commit c.2 c.1 = c
  ∧ c'.1 !! Aggregate.aggregateId a
    = Some (default [] (eventsByAggregate !! Aggregate.aggregateId a)
            ++ Aggregate.uncommittedChanges a)
  ∧ EventStoreByAggregate.commit c'.2 c'.1 = c'.
Proof.
  intros c c'. split; [reflexivity|]. split.
  { unfold c, EventStore.commit. cbn. rewrite app_nil_r. f_equal.
    unfold Aggregate.markChangesAsCommitted. cbn. by rewrite app_nil_r. }
  assert (Hkey :
    c'.1 !! Aggregate.aggregateId a
    = Some (default [] (eventsByAggregate !! Aggregate.aggregateId a)
            ++ Aggregate.uncommittedChanges a)).
  { unfold c', EventStoreByAggregate.commit, EventStoreByAggregate.saveEvents.
    cbn. apply lookup_insert_eq. }
  split; [exact Hkey|].
  unfold EventStoreByAggregate.commit at 1.
  unfold EventStoreByAggregate.saveEvents at 1.
  change (Aggregate.aggregateId c'.2) with (Aggregate.aggregateId a).
  change (Aggregate.uncommittedChanges c'.2) with (@nil E).
  rewrite Hkey. cbn [default]. rewrite app_nil_r.
  rewrite (insert_id _ _ _ Hkey).
  unfold c', EventStoreByAggregate.commit. cbn. f_equal.
  unfold Aggregate.markChangesAsCommitted. cbn. by rewrite app_nil_r.
Qed.

End StoreFacts.

(** Saving Robert's renaming does not touch what is loadable for Alice. *)
Lemma saveEvents_isolation_witness :
  let alice := User.UserCreated "user-002" "Alice" "Smith" (Some "555-5678") in
  Forall (λ e, aggregateId e = "user-001") [Demo.renamed]
  ∧ "user-001" ≠ "user-002"
  ∧ EventStore.loadEventsForAggregate
      (EventStore.saveEvents [Demo.created; alice] "user-001" [Demo.renamed])
      "user-002" User.EventTags
    = [alice].
Proof.
  intros alice.
  assert (Hid : Forall (λ e, aggregateId e = "user-001") [Demo.renamed])
    by (by apply (bool_decide_unpack _)).
  assert (Hne : "user-001" ≠ "user-002") by discriminate.
  split; [exact Hid|]. split; [exact Hne|].
  exact (proj1
    (saveEvents_isolation [Demo.created; alice] ∅ [Demo.renamed]
       "user-001" "user-002" User.EventTags Hid Hne)).
Defined.

(** ** The user aggregate *)

Section UserFacts.

Implicit Types (S : list User.UserEvent) (id : AggregateId)
  (storedEvents : list User.UserEvent) (us : list Demo.Update).

Lemma create_built id (firstName lastName : string)
    (phoneNumber : option string) :
  User.create id firstName lastName phoneNumber
  = Demo.built id []
      [User.UserCreated id firstName lastName (Views.givenPhone phoneNumber)].
Proof. reflexivity. Qed.

Lemma eventOf_aggregateId id us :
  Forall (λ e, aggregateId e = id) (Demo.eventOf id <$> us).
Proof.
  apply Forall_fmap, Forall_forall. intros u _. by destruct u.
Qed.

(** X7: a new user has version 1, no committed change and the one
    uncommitted [UserCreated] event; its display name is the first name,
    a space and the last name; and an empty string given as phone number
    counts as no phone number. *)
Theorem create_spec id (firstName lastName : string)
    (phoneNumber : option string) :
  User.create id firstName lastName phoneNumber
  = {| Aggregate.aggregateId := id;
       Aggregate.state :=
         {| User.firstName := firstName;
            User.lastName := lastName;
            User.displayName := firstName +:+ " " +:+ lastName;
            User.phoneNumber := Views.givenPhone phoneNumber |};
       Aggregate.committedChanges := [];
       Aggregate.uncommittedChanges :=
         [User.UserCreated id firstName lastName
            (Views.givenPhone phoneNumber)];
       Aggregate.version := 1 |}
  ∧ User.create id firstName lastName (Some "")
    = User.create id firstName lastName None.
Proof. split; reflexivity. Qed.

(** X8: a user loaded from a history and then updated has that history
    as committed changes and the events of the updates, in order and
    under its own identifier, as uncommitted changes; its version counts
    both and its state is the fold of the reducer over the history
    followed by the new events. *)
Theorem load_then_update id S us :
  foldl Demo.perform (User.loadFromHistory id S) us
  = {| Aggregate.aggregateId := id;
       Aggregate.state :=
         foldl User.applyEventToState User.emptyState
           (S ++ (Demo.eventOf id <$> us));
       Aggregate.committedChanges := S;
       Aggregate.uncommittedChanges := Demo.eventOf id <$> us;
       Aggregate.version :=
         (Z.of_nat (length S) + Z.of_nat (length us))%Z |}.
Proof.
  rewrite loadFromHistory_built, perform_built. unfold Demo.built. cbn.
  by rewrite length_fmap.
Qed.

(** X9: the events a user gathers through the domain operations carry
    the user's identifier, whether the user was loaded or created; so a
    save makes them loadable for that user, behind the ones that were. *)
Theorem save_own_partition storedEvents id (firstName lastName : string)
    (phoneNumber : option string) us tags :
  let loaded :=
    foldl Demo.perform (UserRepository.getById storedEvents id) us in
  let fresh :=
    foldl Demo.perform (User.create id firstName lastName phoneNumber) us in
  Forall (λ e, aggregateId e = id) (Aggregate.uncommittedChanges loaded)
  ∧ Forall (λ e, aggregateId e = id) (Aggregate.uncommittedChanges fresh)
  ∧ EventStore.loadEventsForAggregate
      (UserRepository.save storedEvents loaded).1 id tags
    = EventStore.loadEventsForAggregate storedEvents id tags
      ++ filter (EventStore.hasMatchingTag tags)
           (Aggregate.uncommittedChanges loaded)
  ∧ EventStore.loadEventsForAggregate
      (UserRepository.save storedEvents fresh).1 id tags
    = EventStore.loadEventsForAggregate storedEvents id tags
      ++ filter (EventStore.hasMatchingTag tags)
           (Aggregate.uncommittedChanges fresh).
Proof.
  intros loaded fresh.
  assert (Hloaded :
    Forall (λ e, aggregateId e = id) (Aggregate.uncommittedChanges loaded)).
  { unfold loaded, UserRepository.getById. cbv zeta.
    rewrite loadFromHistory_built, perform_built. cbn.
    apply eventOf_aggregateId. }
  assert (Hfresh :
    Forall (λ e, aggregateId e = id) (Aggregate.uncommittedChanges fresh)).
  { unfold fresh. rewrite create_built, perform_built.
    cbn [Demo.built Aggregate.uncommittedChanges].
    apply Forall_app. split; [|apply eventOf_aggregateId].
    by apply Forall_singleton. }
  split; [exact Hloaded|]. split; [exact Hfresh|].
  unfold UserRepository.save, EventStore.commit. cbn [fst].
  rewrite !saveEvents_load_log.
  by rewrite (filter_keeps_all _ _ Hloaded), (filter_keeps_all _ _ Hfresh).
Qed.

(** X10: load, update, save and load again: the second load returns the
    saved aggregate as it would be had the phone-number updates not been
    made; their events are stored but not replayed. *)
Theorem reload_after_save storedEvents id us :
  let a := foldl Demo.perform (UserRepository.getById storedEvents id) us in
  UserRepository.getById (UserRepository.save storedEvents a).1 id
  = Aggregate.markChangesAsCommitted
      (foldl Demo.perform (UserRepository.getById storedEvents id)
         (filter Demo.isSetFirstName us))
  ∧ filter (λ e, aggregateId e = id) (UserRepository.save storedEvents a).1
    = filter (λ e, aggregateId e = id) storedEvents
      ++ (Demo.eventOf id <$> us).
Proof.
  intros a. split; [apply save_getById|].
  unfold a, UserRepository.save, EventStore.commit, UserRepository.getById.
  cbv zeta. rewrite loadFromHistory_built, perform_built. cbn.
  rewrite filter_app. f_equal.
  apply filter_keeps_all, eventOf_aggregateId.
Qed.

(** X11: when the updates only change the first name, loading after the
    save returns exactly the aggregate the save returned. *)
Theorem reload_after_renaming storedEvents id us :
  Forall Demo.isSetFirstName us →
  let a := foldl Demo.perform (UserRepository.getById storedEvents id) us in
  UserRepository.getById (UserRepository.save storedEvents a).1 id
  = (UserRepository.save storedEvents a).2.
Proof. apply save_getById_names. Qed.

Lemma displayName_after_name (state0 : User.UserState) S :
  Exists Views.setsName S →
  User.displayName (foldl User.applyEventToState state0 S)
  = User.firstName (foldl User.applyEventToState state0 S)
    +:+ " " +:+ User.lastName (foldl User.applyEventToState state0 S).
Proof.
  induction S as [|e S IH] using rev_ind.
  - intros Hex. by apply Exists_nil in Hex.
  - intros Hex. rewrite foldl_snoc.
    destruct e as [id f l p|id f|id p]; cbn; [reflexivity..|].
    apply Exists_app in Hex as [Hex|Hex]; [by apply IH|].
    apply Exists_cons in Hex as [[]|Hex]. by apply Exists_nil in Hex.
Qed.

(** X12: once an event that sets a name has been applied, the display
    name is the first name, a space and the last name, from whatever
    state the events were applied. *)
Theorem displayName_invariant (state0 : User.UserState) S :
  Exists Views.setsName S →
  User.displayName (foldl User.applyEventToState state0 S)
  = User.firstName (foldl User.applyEventToState state0 S)
    +:+ " " +:+ User.lastName (foldl User.applyEventToState state0 S).
Proof. apply displayName_after_name. Qed.

(** X13: a [UserCreated] event sets the whole state: what was applied
    before it has no influence on the state after it. *)
Theorem UserCreated_resets (state0 state1 : User.UserState) S S' id
    (firstName lastName : string) (phoneNumber : option string) :
  foldl User.applyEventToState state0
    (S ++ User.UserCreated id firstName lastName phoneNumber :: S')
  = foldl User.applyEventToState state1
      (User.UserCreated id firstName lastName phoneNumber :: S').
Proof. by rewrite foldl_app. Qed.

End UserFacts.

(** Renaming Robert twice round-trips through the store. *)
Lemma reload_after_renaming_witness :
  let us := [Demo.SetFirstName "Bob"; Demo.SetFirstName "Rob"] in
  let a :=
    foldl Demo.perform (UserRepository.getById [Demo.created] "user-001") us in
  Forall Demo.isSetFirstName us
  ∧ UserRepository.getById (UserRepository.save [Demo.created] a).1
      "user-001"
    = (UserRepository.save [Demo.created] a).2.
Proof.
  intros us a.
  assert (Hus : Forall Demo.isSetFirstName us)
    by (by apply (bool_decide_unpack _)).
  split; [exact Hus|].
  exact (reload_after_renaming [Demo.created] "user-001" us Hus).
Defined.

(** A phone number given to a renamed user leaves the display name. *)
Lemma displayName_invariant_witness :
  let S := [Demo.renamed; User.PhoneNumberUpdated "user-001" "555-1234"] in
  Exists Views.setsName S
  ∧ User.displayName (foldl User.applyEventToState User.emptyState S)
    = "Bob ".
Proof.
  intros S.
  assert (Hex : Exists Views.setsName S) by (apply Exists_cons_hd; exact I).
  split; [exact Hex|].
  exact (displayName_invariant User.emptyState S Hex).
Defined.

(** ** Records as finite maps *)

Section RecordMaps.

Context {V : Type}.

Implicit Types (self : list (string * V)) (key k : string) (value : V).

Lemma get_list_to_map self key :
  Record.get self key = (list_to_map self : gmap string V) !! key.
Proof.
  induction self as [|[k v] self IH]; [done|].
  cbn [Record.get]. rewrite list_to_map_cons, lookup_insert, IH.
  by destruct (decide (k = key)).
Qed.

Lemma define_list_to_map key value self :
  (list_to_map (Record.define key value self) : gmap string V)
  = <[key := value]> (list_to_map self).
Proof.
  induction self as [|[k v] self IH]; [reflexivity|].
  cbn [Record.define]. destruct (decide (k = key)) as [->|Hne].
  - by rewrite !list_to_map_cons, insert_insert_eq.
  - rewrite !list_to_map_cons, IH. by apply insert_insert_ne.
Qed.

Lemma define_NoDup key value self :
  NoDup self.*1 → NoDup (Record.define key value self).*1.
Proof.
  induction self as [|[k v] self IH]; cbn.
  - intros _. apply NoDup_singleton.
  - rewrite !NoDup_cons. intros [Hk Hnd].
    destruct (decide (k = key)) as [->|Hne]; cbn; rewrite NoDup_cons.
    + done.
    + split; [|by apply IH]. rewrite define_keys. intros [?|?]; done.
Qed.

Lemma ownEntries_NoDup self :
  NoDup self.*1 → NoDup (Record.ownEntries self).*1.
Proof. by rewrite (ownEntries_Permutation self). Qed.

Lemma set_NoDup self key value :
  NoDup self.*1 → NoDup (Record.set self key value).*1.
Proof. intros Hnd. by apply define_NoDup, ownEntries_NoDup. Qed.

(** On an object, [Record.set] then [Record.get] is the insertion into,
    and the lookup in, a finite map. *)
Lemma get_set self key value k :
  NoDup self.*1 →
  Record.get (Record.set self key value) k
  = if decide (key = k) then Some value else Record.get self k.
Proof.
  intros Hnd. unfold Record.set.
  rewrite !get_list_to_map, define_list_to_map, lookup_insert.
  destruct (decide (key = k)); [done|].
  f_equal. symmetry. apply list_to_map_proper; [done|].
  symmetry. apply ownEntries_Permutation.
Qed.

Lemma elem_of_get self key value :
  NoDup self.*1 → (key, value) ∈ self ↔ Record.get self key = Some value.
Proof.
  intros Hnd. rewrite get_list_to_map. by apply elem_of_list_to_map.
Qed.

Lemma define_fst key value self :
  (Record.define key value self).*1
  = if decide (key ∈ self.*1) then self.*1 else self.*1 ++ [key].
Proof.
  induction self as [|[k v] self IH]; cbn.
  - rewrite decide_False; [done|]. apply not_elem_of_nil.
  - destruct (decide (k = key)) as [->|Hne]; cbn.
    + rewrite decide_True; [done|]. apply elem_of_cons. by left.
    + rewrite IH. destruct (decide (key ∈ self.*1)) as [Hin|Hnin].
      * rewrite decide_True; [done|]. apply elem_of_cons. by right.
      * rewrite decide_False; [done|]. rewrite elem_of_cons.
        intros [?|?]; done.
Qed.

(** Without array indices among the keys, enumeration is creation
    order. *)
Lemma ownEntries_plain self :
  Forall (λ k, Record.arrayIndex k = None) self.*1 →
  Record.ownEntries self = self.
Proof.
  intros Hplain. unfold Record.ownEntries.
  assert (Hnone : Record.indexed self = []).
  { unfold Record.indexed. induction self as [|[k v] self IH]; [done|].
    cbn in *. apply Forall_cons in Hplain as [Hk Hplain].
    rewrite Hk. cbn. by apply IH. }
  rewrite Hnone. cbn. apply filter_keeps_all.
  apply Forall_fmap in Hplain. exact Hplain.
Qed.

End RecordMaps.

(** ** The directory against the aggregates *)

Section DirectoryFacts.

Implicit Types (users : list (string * UserDirectory.UserProjection))
  (S : list User.UserEvent) (e : User.UserEvent) (k : string).

Lemma createdIds_snoc S e :
  Views.createdIds (S ++ [e])
  = Views.createdIds S
    ++ match e with User.UserCreated id _ _ _ => [id] | _ => [] end.
Proof.
  unfold Views.createdIds. rewrite omap_app. by destruct e.
Qed.

Lemma stateOf_snoc k S e :
  Views.stateOf k (S ++ [e])
  = if decide (aggregateId e = k)
    then User.applyEventToState (Views.stateOf k S) e
    else Views.stateOf k S.
Proof.
  unfold Views.stateOf, Views.eventsOf. rewrite filter_app.
  destruct (decide (aggregateId e = k)) as [Heq|Hne].
  - rewrite (filter_cons_True _ e []) by done.
    by rewrite filter_nil, foldl_snoc.
  - rewrite (filter_cons_False _ e []) by done.
    by rewrite filter_nil, app_nil_r.
Qed.

Lemma applyEvent_NoDup users e :
  NoDup users.*1 → NoDup (UserDirectory.applyEvent users e).*1.
Proof.
  intros Hnd. destruct e as [id f l p|id f|id p]; cbn.
  - by apply set_NoDup.
  - destruct (Record.get users id); cbn; [by apply set_NoDup|done].
  - destruct (Record.get users id); cbn; [by apply set_NoDup|done].
Qed.

Lemma projection_NoDup S :
  NoDup (foldl UserDirectory.applyEvent Record.empty S).*1.
Proof.
  induction S as [|e S IH] using rev_ind; [apply NoDup_nil_2|].
  rewrite foldl_snoc. by apply applyEvent_NoDup.
Qed.

(** The projection holds, for every created user, what the replay of
    that user's events computes, and nothing for anyone else. *)
Lemma projection_lookup S k :
  Record.get (foldl UserDirectory.applyEvent Record.empty S) k
  = if decide (k ∈ Views.createdIds S)
    then Some (Views.project (Views.stateOf k S))
    else None.
Proof.
  revert k. induction S as [|e S IH] using rev_ind; intros k.
  { cbn. rewrite decide_False; [done|]. apply not_elem_of_nil. }
  rewrite foldl_snoc, createdIds_snoc, stateOf_snoc.
  pose proof (projection_NoDup S) as Hnd.
  set (users := foldl UserDirectory.applyEvent Record.empty S) in *.
  destruct e as [id f l p|id f|id p]; cbn [UserDirectory.applyEvent aggregateId
    User.UserEvent_event].
  - rewrite get_set by done.
    destruct (decide (id = k)) as [->|Hne].
    + rewrite decide_True; [done|]. apply elem_of_app. right.
      by apply list_elem_of_singleton.
    + rewrite IH. destruct (decide (k ∈ Views.createdIds S)) as [Hin|Hnin].
      * rewrite decide_True; [done|]. apply elem_of_app. by left.
      * rewrite decide_False; [done|]. rewrite elem_of_app.
        intros [?|Hk]; [done|]. by apply list_elem_of_singleton in Hk.
  - rewrite app_nil_r. rewrite (IH id).
    destruct (decide (id ∈ Views.createdIds S)) as [Hin|Hnin]; cbn.
    + rewrite get_set by done.
      destruct (decide (id = k)) as [->|Hne].
      * by rewrite decide_True.
      * apply IH.
    + destruct (decide (id = k)) as [->|Hne]; [|apply IH].
      rewrite IH. by rewrite !decide_False.
  - rewrite app_nil_r. rewrite (IH id).
    destruct (decide (id ∈ Views.createdIds S)) as [Hin|Hnin]; cbn.
    + rewrite get_set by done.
      destruct (decide (id = k)) as [->|Hne].
      * by rewrite decide_True.
      * apply IH.
    + destruct (decide (id = k)) as [->|Hne]; [|apply IH].
      rewrite IH. by rewrite !decide_False.
Qed.

Lemma projection_keys S k :
  k ∈ (foldl UserDirectory.applyEvent Record.empty S).*1
  ↔ k ∈ Views.createdIds S.
Proof.
  pose proof (projection_lookup S k) as Hget.
  destruct (decide (k ∈ Views.createdIds S)) as [Hin|Hnin].
  - split; [done|]. intros _. by eapply get_Some_key.
  - apply get_None in Hget. tauto.
Qed.

(** A created user has an event that sets the name. *)
Lemma created_setsName S k :
  k ∈ Views.createdIds S → Exists Views.setsName (Views.eventsOf k S).
Proof.
  unfold Views.createdIds, Views.eventsOf. intros Hk.
  apply list_elem_of_omap in Hk as (e & He & Hid).
  apply Exists_exists. exists e. split.
  - apply list_elem_of_filter. split; [|done].
    destruct e; cbn in *; congruence.
  - by destruct e.
Qed.

(** The entry made of a projection is the entry of the state. *)
Lemma toEntry_entryOf S k :
  k ∈ Views.createdIds S →
  UserDirectory.toEntry (k, Views.project (Views.stateOf k S))
  = Views.entryOf S k.
Proof.
  intros Hk. unfold UserDirectory.toEntry, Views.entryOf, Views.project. cbn.
  unfold Views.stateOf.
  by rewrite (displayName_after_name _ _ (created_setsName S k Hk)).
Qed.

Lemma projection_entries S kv :
  kv ∈ foldl UserDirectory.applyEvent Record.empty S →
  kv.1 ∈ Views.createdIds S
  ∧ UserDirectory.toEntry kv = Views.entryOf S kv.1.
Proof.
  destruct kv as [k p]. intros Hin. cbn.
  apply (elem_of_get _ _ _ (projection_NoDup S)) in Hin.
  rewrite projection_lookup in Hin.
  destruct (decide (k ∈ Views.createdIds S)) as [Hk|]; [|done].
  injection Hin as <-. split; [done|]. by apply toEntry_entryOf.
Qed.

Lemma entryOf_id S k d : Views.entryOf S k = Some d → UserDirectory.id d = k.
Proof.
  unfold Views.entryOf. destruct (User.phoneNumber _); cbn; [|done].
  by intros [= <-].
Qed.

Lemma omap_length_le {A B : Type} (f : A → option B) (l : list A) :
  length (omap f l) ≤ length l.
Proof.
  induction l as [|x l IH]; cbn; [done|]. destruct (f x); cbn; lia.
Qed.

Lemma entries_entryOf S (d : UserDirectory.DirectoryEntry) :
  d ∈ UserDirectory.entries (UserDirectory.fromEvents S)
  ↔ UserDirectory.id d ∈ Views.createdIds S
    ∧ Views.entryOf S (UserDirectory.id d) = Some d.
Proof.
  unfold UserDirectory.fromEvents. cbv zeta.
  set (users := foldl UserDirectory.applyEvent Record.empty S).
  destruct (toDirectory_entries users) as (_ & _ & Hperm).
  rewrite Hperm, list_elem_of_omap. split.
  - intros (kv & Hin & Hentry).
    destruct (projection_entries S kv Hin) as [Hk Heq].
    rewrite Heq in Hentry.
    rewrite (entryOf_id _ _ _ Hentry). by split.
  - intros [Hk Hentry].
    exists (UserDirectory.id d,
            Views.project (Views.stateOf (UserDirectory.id d) S)).
    split.
    + apply (elem_of_get _ _ _ (projection_NoDup S)).
      rewrite projection_lookup. by rewrite decide_True.
    + by rewrite toEntry_entryOf.
Qed.

(** X14: the directory has an entry [d] exactly when the user [d.id] was
    created in the stream and the replay of that user's events, all
    three kinds of them, ends in a state with a phone number; the entry
    carries the display name and the phone number of that state. *)
Theorem directory_agrees_with_aggregates S (d : UserDirectory.DirectoryEntry) :
  d ∈ UserDirectory.entries (UserDirectory.fromEvents S)
  ↔ UserDirectory.id d ∈ Views.createdIds S
    ∧ Views.entryOf S (UserDirectory.id d) = Some d.
Proof. apply entries_entryOf. Qed.

(** X15: the directory counts every created user once, however often its
    creation event occurs; the users with a phone are counted among
    them; and no user has two entries. *)
Theorem directory_counts S :
  UserDirectory.totalUsers (UserDirectory.fromEvents S)
  = length (remove_dups (Views.createdIds S))
  ∧ UserDirectory.usersWithPhone (UserDirectory.fromEvents S)
    = length (UserDirectory.entries (UserDirectory.fromEvents S))
  ∧ UserDirectory.usersWithPhone (UserDirectory.fromEvents S)
    ≤ UserDirectory.totalUsers (UserDirectory.fromEvents S)
  ∧ NoDup (UserDirectory.id <$> UserDirectory.entries
                                  (UserDirectory.fromEvents S)).
Proof.
  unfold UserDirectory.fromEvents. cbv zeta.
  set (users := foldl UserDirectory.applyEvent Record.empty S).
  destruct (toDirectory_entries users) as (Htotal & Hphone & Hperm).
  assert (Hkeys : users.*1 ≡ₚ remove_dups (Views.createdIds S)).
  { apply NoDup_Permutation;
      [apply projection_NoDup|apply NoDup_remove_dups|].
    intros k. rewrite elem_of_remove_dups. apply projection_keys. }
  split; [|split; [exact Hphone|split]].
  - by rewrite Htotal, <- Hkeys, length_fmap.
  - rewrite Hphone, Htotal, Hperm. apply omap_length_le.
  - rewrite Hperm.
    assert (Hsub : ∀ l : list (string * UserDirectory.UserProjection),
      NoDup l.*1 → NoDup (UserDirectory.id <$> omap UserDirectory.toEntry l)
      ∧ ∀ k, k ∈ (UserDirectory.id <$> omap UserDirectory.toEntry l) →
             k ∈ l.*1).
    { induction l as [|[k p] l IH]; cbn.
      - intros _. split; [apply NoDup_nil_2|done].
      - rewrite NoDup_cons. intros [Hk Hnd].
        destruct (IH Hnd) as [IHnd IHin].
        destruct (UserDirectory.projPhoneNumber p) as [ph|]; cbn.
        + split.
          * apply NoDup_cons. split; [|done]. intros Hin. by apply Hk, IHin.
          * intros k'. rewrite !elem_of_cons. intros [->|Hin]; [by left|].
            right. by apply IHin.
        + split; [done|]. intros k' Hin. apply elem_of_cons. right.
          by apply IHin. }
    apply Hsub, projection_NoDup.
Qed.

End DirectoryFacts.

(** ** The order of the directory *)

Section DirectoryOrder.

Implicit Types (users : list (string * UserDirectory.UserProjection))
  (S : list User.UserEvent) (k : string).

Lemma firstOccurrences_elem_of (l : list string) k :
  k ∈ Views.firstOccurrences l ↔ k ∈ l.
Proof.
  unfold Views.firstOccurrences.
  by rewrite elem_of_reverse, elem_of_remove_dups, elem_of_reverse.
Qed.

Lemma firstOccurrences_snoc (l : list string) k :
  Views.firstOccurrences (l ++ [k])
  = if decide (k ∈ l) then Views.firstOccurrences l
    else Views.firstOccurrences l ++ [k].
Proof.
  unfold Views.firstOccurrences. rewrite reverse_snoc. cbn [remove_dups].
  destruct (decide (k ∈ l)) as [Hin|Hnin];
    destruct (decide_rel elem_of k (reverse l)) as [Hin'|Hnin'];
    rewrite ?elem_of_reverse in *; try done.
  by rewrite reverse_cons.
Qed.

Lemma define_same_keys users k (p : UserDirectory.UserProjection) :
  k ∈ users.*1 → (Record.define k p users).*1 = users.*1.
Proof. intros Hk. by rewrite define_fst, decide_True. Qed.

(** With plain identifiers the keys of the projection are the created
    users in the order of their first creation. *)
Lemma projection_keys_order S :
  Forall (λ k, Record.arrayIndex k = None) (Views.createdIds S) →
  (foldl UserDirectory.applyEvent Record.empty S).*1
  = Views.firstOccurrences (Views.createdIds S).
Proof.
  induction S as [|e S IH] using rev_ind; [done|].
  rewrite createdIds_snoc, foldl_snoc. intros Hplain.
  apply Forall_app in Hplain as [HplainS Hplain_e].
  specialize (IH HplainS).
  set (users := foldl UserDirectory.applyEvent Record.empty S) in *.
  assert (Hown : Record.ownEntries users = users).
  { apply ownEntries_plain. rewrite IH. apply Forall_forall.
    intros k Hk. rewrite firstOccurrences_elem_of in Hk.
    rewrite Forall_forall in HplainS. by apply HplainS. }
  destruct e as [id f l p|id f|id p]; cbn [UserDirectory.applyEvent].
  - unfold Record.set. rewrite Hown, define_fst, firstOccurrences_snoc.
    rewrite IH.
    destruct (decide (id ∈ Views.createdIds S)) as [Hin|Hnin].
    + rewrite decide_True; [done|]. by apply firstOccurrences_elem_of.
    + rewrite decide_False; [done|]. by rewrite firstOccurrences_elem_of.
  - rewrite app_nil_r.
    destruct (Record.get users id) as [existing|] eqn:Hget; cbn; [|done].
    unfold Record.set. rewrite Hown, define_same_keys; [done|].
    by eapply get_Some_key.
  - rewrite app_nil_r.
    destruct (Record.get users id) as [existing|] eqn:Hget; cbn; [|done].
    unfold Record.set. rewrite Hown, define_same_keys; [done|].
    by eapply get_Some_key.
Qed.

Lemma omap_keys {A B : Type} (f : string * A → option B)
    (g : string → option B) (l : list (string * A)) :
  (∀ kv, kv ∈ l → f kv = g kv.1) → omap f l = omap g l.*1.
Proof.
  induction l as [|kv l IH]; [done|]. intros Hfg. cbn.
  rewrite (Hfg kv) by (apply elem_of_cons; by left).
  rewrite IH; [done|]. intros kv' Hin. apply Hfg, elem_of_cons. by right.
Qed.

(** X16: when no created identifier is an array index, the entries of the
    directory are the created users with a phone number, in the order in
    which the users were first created, each with the display name and
    the phone number of its aggregate state. *)
Theorem directory_in_creation_order S :
  Forall (λ k, Record.arrayIndex k = None) (Views.createdIds S) →
  UserDirectory.entries (UserDirectory.fromEvents S)
  = omap (Views.entryOf S) (Views.firstOccurrences (Views.createdIds S)).
Proof.
  intros Hplain. unfold UserDirectory.fromEvents. cbv zeta.
  pose proof (projection_keys_order S Hplain) as Hkeys.
  set (users := foldl UserDirectory.applyEvent Record.empty S) in *.
  unfold UserDirectory.toDirectory, Record.toEntries. cbn.
  rewrite ownEntries_plain.
  - rewrite <- Hkeys. apply omap_keys. intros kv Hin.
    by apply projection_entries.
  - rewrite Hkeys. apply Forall_forall. intros k Hk.
    rewrite firstOccurrences_elem_of in Hk.
    rewrite Forall_forall in Hplain. by apply Hplain.
Qed.

(** X17: the directory repository asks for all three tags, which are all
    there are: the directory it loads is the fold of the whole log. *)
Theorem load_reads_whole_log (storedEvents : list User.UserEvent) :
  UserDirectoryRepository.load storedEvents
  = UserDirectory.fromEvents storedEvents
  ∧ EventStore.loadEvents storedEvents User.EventTags = storedEvents.
Proof.
  split; [apply load_whole_log|]. cbn.
  apply filter_keeps_all, Forall_forall. intros e _.
  apply EventTags_complete.
Qed.

End DirectoryOrder.

(** The directory at the end of the demonstration session: Robert, then
    Alice. *)
Lemma directory_in_creation_order_witness :
  Forall (λ k, Record.arrayIndex k = None) (Views.createdIds Demo.main.1)
  ∧ UserDirectory.entries (UserDirectory.fromEvents Demo.main.1)
    = [UserDirectory.mkDirectoryEntry "user-001" "Bob Smith" "555-1234";
       UserDirectory.mkDirectoryEntry "user-002" "Alice Smith" "555-5678"].
Proof.
  assert (Hplain :
    Forall (λ k, Record.arrayIndex k = None) (Views.createdIds Demo.main.1))
    by (by apply (bool_decide_unpack _)).
  split; [exact Hplain|].
  exact (directory_in_creation_order Demo.main.1 Hplain).
Defined.

(** ** The earlier user aggregate on the per-aggregate store *)

Section Histories.

Context {State E : Type} (reduce : State → E → State).

Implicit Types (a : Aggregate.Aggregate State E) (S N : list E).

Lemma replay_record a S :
  foldl (λ agg event, Aggregate.makeEventApplier reduce agg event false) a S
  = {| Aggregate.aggregateId := Aggregate.aggregateId a;
       Aggregate.state := foldl reduce (Aggregate.state a) S;
       Aggregate.committedChanges := Aggregate.committedChanges a ++ S;
       Aggregate.uncommittedChanges := Aggregate.uncommittedChanges a;
       Aggregate.version :=
         (Aggregate.version a + Z.of_nat (length S))%Z |}.
Proof.
  revert a. induction S as [|e S IH]; intros a.
  - destruct a. cbn. f_equal; [by rewrite app_nil_r|lia].
  - cbn [foldl]. rewrite IH. cbn -[Z.of_nat].
    f_equal; [by rewrite <- (assoc_L (++))|lia].
Qed.

Lemma newEvents_record a N :
  foldl (λ agg event, Aggregate.makeEventApplier reduce agg event true) a N
  = {| Aggregate.aggregateId := Aggregate.aggregateId a;
       Aggregate.state := foldl reduce (Aggregate.state a) N;
       Aggregate.committedChanges := Aggregate.committedChanges a;
       Aggregate.uncommittedChanges := Aggregate.uncommittedChanges a ++ N;
       Aggregate.version :=
         (Aggregate.version a + Z.of_nat (length N))%Z |}.
Proof.
  revert a. induction N as [|e N IH]; intros a.
  - destruct a. cbn. f_equal; [by rewrite app_nil_r|lia].
  - cbn [foldl]. rewrite IH. cbn -[Z.of_nat].
    f_equal; [by rewrite <- (assoc_L (++))|lia].
Qed.

End Histories.

Section EarlierUserFacts.

Implicit Types (store : gmap string (list EarlierUser.UserEvent))
  (id : AggregateId) (names : list string).

Lemma earlier_EventTags_complete (l : list EarlierUser.UserEvent) :
  filter (EventStore.hasMatchingTag EarlierUser.EventTags) l = l.
Proof.
  apply filter_keeps_all, Forall_forall. intros e _.
  unfold EventStore.hasMatchingTag, EarlierUser.EventTags.
  destruct e; cbn; rewrite !elem_of_cons; tauto.
Qed.

Lemma earlier_loadFromHistory id store :
  EarlierUser.loadFromHistory id store
  = {| Aggregate.aggregateId := id;
       Aggregate.state :=
         foldl EarlierUser.applyEventToState EarlierUser.emptyState
           (default [] (store !! id));
       Aggregate.committedChanges := default [] (store !! id);
       Aggregate.uncommittedChanges := [];
       Aggregate.version := Z.of_nat (length (default [] (store !! id))) |}.
Proof.
  unfold EarlierUser.loadFromHistory, EarlierUser.applyEvent. cbv zeta.
  rewrite replay_record. unfold EventStoreByAggregate.loadEvents.
  assert (Hall :
    default [] (filter (EventStore.hasMatchingTag EarlierUser.EventTags)
                  <$> store !! id)
    = default [] (store !! id)).
  { destruct (store !! id); cbn; [apply earlier_EventTags_complete|done]. }
  rewrite Hall. reflexivity.
Qed.

Lemma earlier_renames (a : EarlierUser.UserAggregate) names :
  foldl EarlierUser.updateFirstName a names
  = foldl (λ agg event,
             Aggregate.makeEventApplier EarlierUser.applyEventToState agg
               event true)
      a (EarlierUser.FirstNameUpdated (Aggregate.aggregateId a) <$> names).
Proof.
  revert a. induction names as [|n names IH]; intros a; [done|].
  cbn [foldl fmap list_fmap]. by rewrite IH.
Qed.

(** X18: on the earlier code, which loads with all the tags of
    [EventTags], the round trip is exact: a user loaded from the store,
    renamed any number of times and committed is loaded again as the very
    aggregate the commit returned. *)
Theorem earlier_commit_then_load id store names :
  let a :=
    foldl EarlierUser.updateFirstName
      (EarlierUser.loadFromHistory id store) names in
  EarlierUser.loadFromHistory id (EventStoreByAggregate.commit a store).1
  = (EventStoreByAggregate.commit a store).2.
Proof.
  intros a. unfold a.
  rewrite earlier_renames, newEvents_record, !earlier_loadFromHistory.
  unfold EventStoreByAggregate.commit, EventStoreByAggregate.saveEvents,
    Aggregate.markChangesAsCommitted.
  cbn -[Z.of_nat]. rewrite lookup_insert_eq. cbn -[Z.of_nat].
  f_equal.
  - by rewrite foldl_app.
  - rewrite length_app. lia.
Qed.

(** X19: the same for a user created under an identifier the store has
    nothing for. *)
Theorem earlier_create_then_load id store (firstName lastName : string)
    names :
  store !! id = None →
  let a :=
    foldl EarlierUser.updateFirstName
      (EarlierUser.create id firstName lastName) names in
  EarlierUser.loadFromHistory id (EventStoreByAggregate.commit a store).1
  = (EventStoreByAggregate.commit a store).2.
Proof.
  intros Hnone a. unfold a.
  rewrite earlier_renames, newEvents_record, earlier_loadFromHistory.
  unfold EventStoreByAggregate.commit, EventStoreByAggregate.saveEvents,
    Aggregate.markChangesAsCommitted.
  cbn -[Z.of_nat]. rewrite lookup_insert_eq, Hnone. cbn -[Z.of_nat].
  f_equal. lia.
Qed.

End EarlierUserFacts.

(** The session of the earlier [index.ts]: Robert is created and
    committed to an empty store, and loaded again. *)
Lemma earlier_create_then_load_witness :
  let a := EarlierUser.create "user-001" "Robert" "Smith" in
  (∅ : gmap string (list EarlierUser.UserEvent)) !! "user-001" = None
  ∧ EarlierUser.loadFromHistory "user-001"
      (EventStoreByAggregate.commit a ∅).1
    = Aggregate.markChangesAsCommitted a.
Proof.
  intros a.
  assert (Hnone :
    (∅ : gmap string (list EarlierUser.UserEvent)) !! "user-001" = None)
    by reflexivity.
  split; [exact Hnone|].
  exact (earlier_create_then_load "user-001" ∅ "Robert" "Smith" [] Hnone).
Defined.

(** ** From the write side to the read side *)

Section WriteThenRead.

Implicit Types (storedEvents : list User.UserEvent) (id : AggregateId)
  (us : list Demo.Update).

Lemma createdIds_app (S S' : list User.UserEvent) :
  Views.createdIds (S ++ S') = Views.createdIds S ++ Views.createdIds S'.
Proof. apply omap_app. Qed.

(** X20: a user is created, updated in any way and saved; whatever the
    store held before, the directory loaded afterwards shows this user
    with the display name and the phone number of the saved aggregate's
    state, or not at all when that state has no phone number. *)
Theorem saved_user_in_directory storedEvents id
    (firstName lastName : string) (phoneNumber : option string) us
    (name phone : string) :
  let a :=
    foldl Demo.perform (User.create id firstName lastName phoneNumber) us in
  let store := (UserRepository.save storedEvents a).1 in
  Views.stateOf id store = Aggregate.state a
  ∧ (UserDirectory.mkDirectoryEntry id name phone
       ∈ UserDirectory.entries (UserDirectoryRepository.load store)
     ↔ User.phoneNumber (Aggregate.state a) = Some phone
       ∧ name = User.displayName (Aggregate.state a)).
Proof.
  intros a store.
  set (created :=
    User.UserCreated id firstName lastName (Views.givenPhone phoneNumber)).
  assert (Ha : a = Demo.built id [] (created :: (Demo.eventOf id <$> us))).
  { unfold a. by rewrite create_built, perform_built. }
  assert (Hstore :
    store = storedEvents ++ created :: (Demo.eventOf id <$> us)).
  { unfold store. by rewrite Ha. }
  assert (Hstate : Views.stateOf id store = Aggregate.state a).
  { rewrite Hstore, Ha. unfold Views.stateOf, Views.eventsOf.
    rewrite filter_app, filter_cons_True by done.
    rewrite (filter_keeps_all _ _ (eventOf_aggregateId id us)).
    by rewrite foldl_app. }
  split; [exact Hstate|].
  rewrite load_whole_log, entries_entryOf. cbn [UserDirectory.id].
  unfold Views.entryOf. rewrite Hstate. split.
  - intros [_ Hentry].
    destruct (User.phoneNumber (Aggregate.state a)) as [ph|]; [|done].
    cbn in Hentry. by injection Hentry as <- <-.
  - intros [Hphone ->]. split.
    + rewrite Hstore, createdIds_app. apply elem_of_app. right.
      apply elem_of_cons. by left.
    + by rewrite Hphone.
Qed.

End WriteThenRead.
